(** * unrpyc statement decompiler: a shallow embedding of
      [decompiler/__init__.py] and the properties of its renderers.

    The Python class [Decompiler] keeps its traversal state in instance
    fields; here that state is the record [Decompiler], threaded through
    every renderer.  Renderers that can raise return a [result]. *)

From Stdlib Require Import ZArith List String Ascii Bool Lia Permutation
  Sorted.
From Stdlib Require Import DecimalString.
Import ListNotations.
Open Scope string_scope.
Open Scope Z_scope.

Scheme All for list.
Scheme All for prod.
Scheme All for option.

Set Implicit Arguments.

(** ** Python strings *)

Definition nl : string := String (ascii_of_nat 10) EmptyString.
Definition dquote : string := String (ascii_of_nat 34) EmptyString.

(** [s * n] on a Python string: the empty string when [n <= 0]. *)
Fixpoint repeat_string (s : string) (n : nat) : string :=
  match n with
  | O => EmptyString
  | S n' => s ++ repeat_string s n'
  end.

(** Truth value of an attribute that is [None] or a string. *)
Definition truthy (o : option string) : bool :=
  match o with
  | Some (String _ _) => true
  | _ => false
  end.

(** [s[-1]], raising nothing here: [None] stands for the IndexError. *)
Fixpoint last_char (s : string) : option ascii :=
  match s with
  | EmptyString => None
  | String c EmptyString => Some c
  | String _ rest => last_char rest
  end.

(** Whitespace as [unicode.isspace] sees it in the ASCII range. *)
Definition isspace (c : ascii) : bool :=
  let n := nat_of_ascii c in
  ((9 <=? n) && (n <=? 13) || (28 <=? n) && (n <=? 32))%nat.

Fixpoint lstrip (s : string) : string :=
  match s with
  | String c rest => if isspace c then lstrip rest else s
  | EmptyString => EmptyString
  end.

Fixpoint rstrip (s : string) : string :=
  match s with
  | EmptyString => EmptyString
  | String c rest =>
      match rstrip rest with
      | EmptyString => if isspace c then EmptyString else String c EmptyString
      | r => String c r
      end
  end.

Definition strip (s : string) : string := rstrip (lstrip s).

(** ["%d" % z] *)
Definition str_int (z : Z) : string := NilZero.string_of_int (Z.to_int z).

(** ** Exceptions and the error monad *)

Inductive PyError : Type :=
| IndexError
| AttributeError
| Exception (message : string).

Inductive result (A : Type) : Type :=
| Ok (a : A)
| Raise (e : PyError).
Arguments Raise {A} e.

Definition bind {A B : Type} (r : result A) (k : A -> result B) : result B :=
  match r with
  | Ok a => k a
  | Raise e => Raise e
  end.

Notation "x <- c ;; k" := (bind c (fun x => k))
  (at level 61, c at next level, right associativity).

(** A Python [for] loop whose body may raise.  The body stays outside the
    recursion, so that a renderer may call itself from the body on the
    elements of the list. *)
Definition for_each {A S : Type} (body : A -> S -> result S)
  : list A -> S -> result S :=
  fix loop (l : list A) (s : S) : result S :=
    match l with
    | [] => Ok s
    | x :: rest => s' <- body x s ;; loop rest s'
    end.

(** A Python [for] loop whose body cannot raise. *)
Definition for_loop {A S : Type} (body : A -> S -> S) : list A -> S -> S :=
  fix loop (l : list A) (s : S) : S :=
    match l with
    | [] => s
    | x :: rest => loop rest (body x s)
    end.

(** [for i, x in enumerate(l)], counting from [i]. *)
Definition for_each_indexed {A S : Type} (body : nat -> A -> S -> result S)
  : list A -> nat -> S -> result S :=
  fix loop (l : list A) (i : nat) (s : S) : result S :=
    match l with
    | [] => Ok s
    | x :: rest => s' <- body i x s ;; loop rest (Datatypes.S i) s'
    end.

(** [l.append(x)] on a Python list. *)
Definition append1 {A : Type} (l : list A) (x : A) : list A := (l ++ [x])%list.

(** [sorted(items, key=...)]: Python's sort is stable, so an insertion that
    goes past strictly smaller keys only is used. *)
Fixpoint insert_by {A : Type} (key : A -> Z) (x : A) (l : list A) : list A :=
  match l with
  | [] => [x]
  | y :: rest =>
      if key x <=? key y then x :: l else y :: insert_by key x rest
  end.

Definition sorted {A : Type} (key : A -> Z) (l : list A) : list A :=
  fold_right (insert_by key) [] l.

(** ** The motion (ATL) tree: [renpy.atl] *)

(** A recorded location [(filename, line)]. *)
Definition Loc : Type := (string * Z)%type.

Definition loc_eqb (a b : Loc) : bool :=
  (fst a =? fst b)%string && (snd a =? snd b)%Z.

Record RawMultipurpose : Type := {
  warp_function : option string;
  warper : option string;
  duration : string;
  revolution : option string;
  circles : string;
  splines : list (string * list string);
  properties : list (string * string);
  expressions : list (string * option string)
}.

(** [handlers] of [RawOn] is a Python dict: it is kept as the list of its
    items in storage order, the order [iteritems] yields. *)
Inductive AtlNode : Type :=
| AtlMultipurpose (loc : Loc) (m : RawMultipurpose)
| AtlBlock (b : RawBlock)
| RawChild (loc : Loc) (children : list RawBlock)
| RawChoice (loc : Loc) (choices : list (string * RawBlock))
| RawContainsExpr (loc : Loc) (expression : string)
| RawEvent (loc : Loc) (name : string)
| RawFunction (loc : Loc) (expr : string)
| RawOn (loc : Loc) (handlers : list (string * RawBlock))
| RawParallel (loc : Loc) (blocks : list RawBlock)
| RawRepeat (loc : Loc) (repeats : option string)
| RawTime (loc : Loc) (time : string)
| AtlUnknown (tag : string) (loc : option Loc)
with RawBlock : Type :=
| mkRawBlock (loc : Loc) (statements : list AtlNode).

Scheme AtlNode_block_ind := Induction for AtlNode Sort Prop
  with RawBlock_node_ind := Induction for RawBlock Sort Prop.

Definition block_loc (b : RawBlock) : Loc :=
  match b with mkRawBlock loc _ => loc end.

Definition block_statements (b : RawBlock) : list AtlNode :=
  match b with mkRawBlock _ statements => statements end.

(** ** The statement tree: [renpy.ast] *)

(** An image specifier, the 7-tuple [imspec]; the index of each component
    in the tuple is given after its name. *)
Record ImSpec : Type := {
  im_name : list string;        (* imspec[0] *)
  im_expression : option string; (* imspec[1] *)
  im_tag : option string;       (* imspec[2] *)
  im_at_list : list string;     (* imspec[3] *)
  im_layer : string;            (* imspec[4] *)
  im_zorder : option string;    (* imspec[5] *)
  im_behind : list string       (* imspec[6] *)
}.

Record ParameterInfo : Type := {
  parameters : list (string * option string);
  positional : list string;
  extrapos : option string;
  extrakw : option string
}.

Record ArgumentInfo : Type := {
  arguments : list (option string * string);
  arg_extrapos : option string;
  arg_extrakw : option string
}.

Record SayNode : Type := {
  say_linenumber : Z;
  who : option string;
  what : string;
  with_ : option string;
  interact : bool;
  attributes : option (list string)
}.

(** [paired] is [None] both when the attribute is missing and when it is
    [None]: [print_with] tests [hasattr(ast, "paired") and ast.paired is not
    None]. *)
Record WithNode : Type := {
  with_linenumber : Z;
  with_expr : string;
  paired : option string
}.

(** [style_properties] is the dict [ast.properties], in storage order. *)
Record StyleNode : Type := {
  style_linenumber : Z;
  style_name : string;
  parent : option string;
  clear : bool;
  take : option string;
  delattr : list string;
  variant : option string;
  style_properties : list (string * string)
}.

Section Statements.

(** The two generations of screen objects are opaque to this module: they
    are only handed to the screen decompilers. *)
Variables ScreenLangScreen SLScreen : Type.

Inductive ScreenObject : Type :=
| ScreenLang (screen : ScreenLangScreen)
| SL2 (screen : SLScreen)
| OtherScreen (tag : string).

Inductive Node : Type :=
| Image (linenumber : Z) (imgname : list string) (code : option string)
        (atl : option RawBlock)
| Transform (linenumber : Z) (varname : string)
            (params : option ParameterInfo) (atl : option RawBlock)
| Show (linenumber : Z) (imspec : ImSpec) (atl : option RawBlock)
| ShowLayer (linenumber : Z) (layer : string) (at_list : list string)
            (atl : option RawBlock)
| Scene (linenumber : Z) (imspec : option ImSpec) (layer : string)
        (atl : option RawBlock)
| Hide (linenumber : Z) (imspec : ImSpec)
| With (w : WithNode)
| Label (linenumber : Z) (name : string) (params : option ParameterInfo)
        (block : list Node)
| Jump (linenumber : Z) (target : string) (expression : bool)
| Call (linenumber : Z) (label : string) (expression : bool)
       (args : option ArgumentInfo)
| Return (linenumber : Z) (expression : option string)
| If (linenumber : Z) (entries : list (string * list Node))
| While (linenumber : Z) (condition : string) (block : list Node)
| Pass (linenumber : Z)
| Init (linenumber : Z) (priority : Z) (block : list Node)
| Menu (linenumber : Z) (menu_with : option string) (set : option string)
       (items : list (string * string * option (list Node)))
| Python (linenumber : Z) (source : string) (hide : bool)
| EarlyPython (linenumber : Z) (source : string) (hide : bool)
| Define (linenumber : Z) (store : option string) (varname : string)
         (source : string)
| Say (say : SayNode)
| UserStatement (linenumber : Z) (line : string)
| Style (st : StyleNode)
| Translate (linenumber : Z) (language : option string) (identifier : string)
            (block : list Node)
| EndTranslate (linenumber : Z)
| TranslateString (linenumber : Z) (language : option string)
                  (old new : string)
| TranslateBlock (linenumber : Z) (language : option string)
                 (block : list Node)
| Screen (linenumber : Z) (screen : ScreenObject)
| Unknown (tag : string) (linenumber : option Z) (loc : option Loc).

(** [ast.linenumber], when the node has that attribute. *)
Definition node_linenumber (n : Node) : option Z :=
  match n with
  | Image l _ _ _ | Transform l _ _ _ | Show l _ _ | ShowLayer l _ _ _
  | Scene l _ _ _ | Hide l _ | Label l _ _ _ | Jump l _ _ | Call l _ _ _
  | Return l _ | If l _ | While l _ _ | Pass l | Init l _ _ | Menu l _ _ _
  | Python l _ _ | EarlyPython l _ _ | Define l _ _ _ | UserStatement l _
  | Translate l _ _ _ | EndTranslate l | TranslateString l _ _ _
  | TranslateBlock l _ _ | Screen l _ => Some l
  | With w => Some (with_linenumber w)
  | Say say => Some (say_linenumber say)
  | Style st => Some (style_linenumber st)
  | Unknown _ l _ => l
  end.

Definition is_Call (n : Node) : bool :=
  match n with Call _ _ _ _ => true | _ => false end.

Definition is_TranslateString (n : Node) : bool :=
  match n with TranslateString _ _ _ _ => true | _ => false end.

(** ** Traversal state: the fields of [self] *)

(** [paired_with] holds [False], [True] or the paired expression. *)
Inductive PairedWith : Type :=
| PW_False
| PW_True
| PW_Expr (e : string).

(** Truth value of the register, as in [if self.paired_with:]. *)
Definition pw_truthy (p : PairedWith) : bool :=
  match p with
  | PW_False => false
  | PW_True => true
  | PW_Expr e => truthy (Some e)
  end.

(** ["%s" % self.paired_with] *)
Definition pw_str (p : PairedWith) : string :=
  match p with
  | PW_False => "False"
  | PW_True => "True"
  | PW_Expr e => e
  end.

Record Config : Type := {
  comparable : bool;
  force_multiline_kwargs : bool;
  decompile_screencode : bool;
  decompile_python : bool;
  indentation : string
}.

Record Decompiler : Type := mkDecompiler {
  out_file : string;
  linenumber : Z;
  indent_level : Z;
  skip_indent_until_write : bool;
  paired_with : PairedWith;
  say_inside_menu : option SayNode
}.

Definition set_out_file (v : string) (s : Decompiler) : Decompiler :=
  mkDecompiler v (linenumber s) (indent_level s) (skip_indent_until_write s)
               (paired_with s) (say_inside_menu s).

Definition set_linenumber (v : Z) (s : Decompiler) : Decompiler :=
  mkDecompiler (out_file s) v (indent_level s) (skip_indent_until_write s)
               (paired_with s) (say_inside_menu s).

Definition set_indent_level (v : Z) (s : Decompiler) : Decompiler :=
  mkDecompiler (out_file s) (linenumber s) v (skip_indent_until_write s)
               (paired_with s) (say_inside_menu s).

Definition set_skip_indent_until_write (v : bool) (s : Decompiler)
  : Decompiler :=
  mkDecompiler (out_file s) (linenumber s) (indent_level s) v
               (paired_with s) (say_inside_menu s).

Definition set_paired_with (v : PairedWith) (s : Decompiler) : Decompiler :=
  mkDecompiler (out_file s) (linenumber s) (indent_level s)
               (skip_indent_until_write s) v (say_inside_menu s).

Definition set_say_inside_menu (v : option SayNode) (s : Decompiler)
  : Decompiler :=
  mkDecompiler (out_file s) (linenumber s) (indent_level s)
               (skip_indent_until_write s) (paired_with s) v.

(** [self.indent_level += k] *)
Definition add_indent_level (k : Z) (s : Decompiler) : Decompiler :=
  set_indent_level (indent_level s + k) s.

(** ** What the module imports *)

Variable cfg : Config.

(** Modelled from the spec: the bound to which [advance_to_line] clamps the
    blank lines it emits ("clamped to a small bound"); the spec gives no
    value. *)
Variable max_blank_lines : Z.

(** [util.string_escape], [util.split_logical_lines],
    [util.reconstruct_paraminfo] and [util.reconstruct_arginfo]. *)
Variable string_escape : string -> string.
Variable split_logical_lines : string -> list string.
Variable reconstruct_paraminfo : option ParameterInfo -> string.
Variable reconstruct_arginfo : ArgumentInfo -> string.

(** [screendecompiler.pprint] and [sl2decompiler.pprint], called with the
    screen, [indent_level], [linenumber] and the flags in the order of the
    call; each writes to the stream and returns the new line number: here the
    text written and that line number. *)
Variable screendecompiler_pprint :
  ScreenLangScreen -> Z -> Z -> bool -> bool -> bool -> bool -> bool
  -> string * Z.
Variable sl2decompiler_pprint :
  SLScreen -> Z -> Z -> bool -> bool -> bool -> bool -> string * Z.

(** Python's [repr] on a unicode string. *)
Variable repr : string -> string.

(** Modelled from the spec: the placeholder [print_unknown] writes for a
    node of an unknown kind, "a clearly tagged placeholder carrying the
    variant tag". *)
Variable unknown_placeholder : string -> string.

(** ** Formatting engine: [util.DecompilerBase] *)

(** Modelled from the spec: [DecompilerBase.write], "appends literal text to
    the current output line; never inserts whitespace implicitly".  A write
    ends the effect of [skip_indent_until_write]. *)
Definition write (text : string) (s : Decompiler) : Decompiler :=
  set_skip_indent_until_write false (set_out_file (out_file s ++ text) s).

(** Modelled from the spec: [DecompilerBase.indent], "emits a newline then
    depth x unit spaces", unless the "skip next indent" flag is set. *)
Definition indent (s : Decompiler) : Decompiler :=
  if skip_indent_until_write s then s
  else write (nl ++ repeat_string (indentation cfg)
                                  (Z.to_nat (indent_level s))) s.

(** Modelled from the spec: [DecompilerBase.advance_to_line], "if current
    cursor line < target, and not in comparable mode, emits target - current
    - 1 blank lines (clamped to a small bound), then sets cursor = target; in
    comparable mode this only updates bookkeeping and never emits blank
    lines". *)
Definition advance_to_line (target : Z) (s : Decompiler) : Decompiler :=
  if linenumber s <? target then
    let blank := Z.min (target - linenumber s - 1) max_blank_lines in
    let s' := if comparable cfg then s
              else write (repeat_string nl (Z.to_nat blank)) s in
    set_linenumber target s'
  else s.

(** Modelled from the spec: [DecompilerBase.print_unknown], which "renders a
    clearly tagged placeholder carrying the variant tag" and lets the
    traversal continue. *)
Definition print_unknown (tag : string) (s : Decompiler) : Decompiler :=
  write (unknown_placeholder tag) (indent s).

(** Modelled from the spec: [util.WordConcatenator.join], which "joins an
    ordered sequence of optional word fragments with single spaces, skipping
    empty fragments". *)
Definition words_join (words : list string) : string :=
  String.concat " "
    (filter (fun w => match w with EmptyString => false | _ => true end) words).

(** ** ATL printing functions *)

Definition print_atl_rawmulti (ast : RawMultipurpose) (s : Decompiler)
  : Decompiler :=
  let s := indent s in
  (* warpers *)
  let words :=
    match warp_function ast, warper ast with
    | Some (String _ _ as f), _ => ["warp"; f; duration ast]
    | _, Some (String _ _ as w) => [w; duration ast]
    | _, _ => if negb (duration ast =? "0")%string then ["pause"; duration ast]
              else []
    end in
  (* revolution *)
  let words :=
    match revolution ast with
    | Some (String _ _ as r) => words ++ [r]
    | _ => words
    end%list in
  (* circles *)
  let words :=
    (if negb (circles ast =? "0")%string then words ++ ["circles"; circles ast]
     else words)%list in
  (* splines *)
  let words :=
    fold_left
      (fun words spline =>
         fold_left (fun words expression => words ++ ["knot"; expression])
                   (snd spline) (words ++ [fst spline]))%list
      (splines ast) words in
  (* properties *)
  let words :=
    fold_left (fun words kv => words ++ [fst kv; snd kv])%list
              (properties ast) words in
  (* with *)
  let words :=
    fold_left
      (fun words e =>
         match snd e with
         | Some (String _ _ as w) => words ++ [fst e; "with"; w]
         | _ => words ++ [fst e]
         end)%list
      (expressions ast) words in
  write (words_join words) s.

(** [print_atl_node] is [print_node] on a motion statement: the line is
    advanced to [ast.loc[1]] unless the statement is a [RawBlock], then the
    renderer registered for the class runs ([print_atl_rawmulti],
    [print_atl_rawblock], [print_atl_rawchild], ...).  [print_atl] renders a
    block; [print_nodes(ast.statements)] is the loop over its statements.

    In [print_atl_rawon] the handlers are paired with their line and with the
    rendering of their block before they are sorted, so that the recursion
    stays on the items of [handlers]; the loop then runs over the items in
    the order [sorted] (or [iteritems]) gives. *)
Fixpoint print_atl_node (ast : AtlNode) (s : Decompiler) {struct ast}
  : Decompiler :=
  match ast with
  | AtlMultipurpose loc m =>
      print_atl_rawmulti m (advance_to_line (snd loc) s)
  | AtlBlock b =>
      print_atl b (write "block:" (indent s))
  | RawChild loc children =>
      for_loop
        (fun child s => print_atl child (write "contains:" (indent s)))
        children (advance_to_line (snd loc) s)
  | RawChoice loc choices =>
      for_loop
        (fun choice s =>
           let s := write "choice" (indent s) in
           let s := if negb (fst choice =? "1.0")%string
                    then write (" " ++ fst choice) s else s in
           print_atl (snd choice) (write ":" s))
        choices (advance_to_line (snd loc) s)
  | RawContainsExpr loc expression =>
      write ("contains " ++ expression)
            (indent (advance_to_line (snd loc) s))
  | RawEvent loc name =>
      write ("event " ++ name) (indent (advance_to_line (snd loc) s))
  | RawFunction loc expr =>
      write ("function " ++ expr) (indent (advance_to_line (snd loc) s))
  | RawOn loc handlers =>
      let items :=
        map (fun item =>
               (fst item, (snd (block_loc (snd item)), print_atl (snd item))))
            handlers in
      let events_to_iterate :=
        if comparable cfg
        then sorted (fun i => fst (snd i)) items
        else items in
      for_loop
        (fun event s =>
           snd (snd event) (write ("on " ++ fst event ++ ":") (indent s)))
        events_to_iterate (advance_to_line (snd loc) s)
  | RawParallel loc blocks =>
      for_loop
        (fun block s => print_atl block (write "parallel:" (indent s)))
        blocks (advance_to_line (snd loc) s)
  | RawRepeat loc repeats =>
      let s := write "repeat" (indent (advance_to_line (snd loc) s)) in
      match repeats with
      | Some (String _ _ as r) => write (" " ++ r) s
      | _ => s
      end
  | RawTime loc time =>
      write ("time " ++ time) (indent (advance_to_line (snd loc) s))
  | AtlUnknown tag loc =>
      let s := match loc with
               | Some l => advance_to_line (snd l) s
               | None => s
               end in
      print_unknown tag s
  end

with print_atl (ast : RawBlock) (s : Decompiler) {struct ast} : Decompiler :=
  match ast with
  | mkRawBlock loc statements =>
      let s := advance_to_line (snd loc) s in
      let s := add_indent_level 1 s in
      let s :=
        match statements with
        | _ :: _ => for_loop print_atl_node statements s
        | [] =>
            (* If a statement ends with a colon but has no block after it,
               loc will get set to ('', 0). *)
            if negb (comparable cfg) || negb (loc_eqb loc (EmptyString, 0))
            then write "pass" (indent s)
            else s
        end in
      add_indent_level (-1) s
  end.

(** The tail shared by the renderers of statements that may carry a motion
    block: [if hasattr(ast, "atl") and ast.atl is not None]. *)
Definition print_atl_of (atl : option RawBlock) (s : Decompiler) : Decompiler :=
  match atl with
  | Some block => print_atl block (write ":" s)
  | None => s
  end.

(** ** Displayable related functions *)

(** Returns whether the last [at] expression ends with a space, so that the
    caller knows not to add another one. *)
Definition print_imspec (imspec : ImSpec) (s : Decompiler)
  : result (Decompiler * bool) :=
  let s := match im_expression imspec with
           | Some e => write ("expression " ++ e) s
           | None => write (String.concat " " (im_name imspec)) s
           end in
  let s := match im_tag imspec with
           | Some tag => write (" as " ++ tag) s
           | None => s
           end in
  let s := match im_behind imspec with
           | _ :: _ =>
               write (" behind " ++ String.concat ", " (im_behind imspec)) s
           | [] => s
           end in
  let s := if negb (im_layer imspec =? "master")%string
           then write (" onlayer " ++ im_layer imspec) s else s in
  let s := match im_zorder imspec with
           | Some z => write (" zorder " ++ z) s
           | None => s
           end in
  match im_at_list imspec with
  | _ :: _ =>
      let s := write (" at " ++ String.concat ", " (im_at_list imspec)) s in
      match last_char (last (im_at_list imspec) EmptyString) with
      | Some c => Ok (s, Ascii.eqb c " "%char)
      | None => Raise IndexError
      end
  | [] => Ok (s, false)
  end.

Definition print_image (imgname : list string) (code : option string)
           (atl : option RawBlock) (s : Decompiler) : Decompiler :=
  let s := write ("image " ++ String.concat " " imgname) (indent s) in
  match code with
  | Some source => write (" = " ++ source) s
  | None => print_atl_of atl s
  end.

Definition print_transform (varname : string) (params : option ParameterInfo)
           (atl : option RawBlock) (s : Decompiler) : Decompiler :=
  let s := write ("transform " ++ varname) (indent s) in
  let s := match params with
           | Some _ => write (reconstruct_paraminfo params) s
           | None => s
           end in
  print_atl_of atl s.

(** ** Directing related functions *)

(** The clause shared by [print_show] and [print_scene]:
    [if self.paired_with: ... self.paired_with = True]. *)
Definition write_paired_with (needs_space : bool) (s : Decompiler)
  : Decompiler :=
  if pw_truthy (paired_with s) then
    let s := if needs_space then write " " s else s in
    let s := write ("with " ++ pw_str (paired_with s)) s in
    set_paired_with PW_True s
  else s.

Definition print_show (imspec : ImSpec) (atl : option RawBlock)
           (s : Decompiler) : result Decompiler :=
  let s := write "show " (indent s) in
  r <- print_imspec imspec s ;;
  let needs_space := negb (snd r) in
  let s := write_paired_with needs_space (fst r) in
  Ok (print_atl_of atl s).

Definition print_showlayer (layer : string) (at_list : list string)
           (atl : option RawBlock) (s : Decompiler) : Decompiler :=
  let s := write ("show layer " ++ layer) (indent s) in
  let s := match at_list with
           | _ :: _ => write (" at " ++ String.concat ", " at_list) s
           | [] => s
           end in
  print_atl_of atl s.

Definition print_scene (imspec : option ImSpec) (layer : string)
           (atl : option RawBlock) (s : Decompiler) : result Decompiler :=
  let s := write "scene" (indent s) in
  r <- match imspec with
       | None =>
           let s := if negb (layer =? "master")%string
                    then write (" onlayer " ++ layer) s else s in
           Ok (s, true)
       | Some imspec =>
           r <- print_imspec imspec (write " " s) ;;
           Ok (fst r, negb (snd r))
       end ;;
  let s := write_paired_with (snd r) (fst r) in
  Ok (print_atl_of atl s).

Definition print_hide (imspec : ImSpec) (s : Decompiler) : result Decompiler :=
  r <- print_imspec imspec (write "hide " (indent s)) ;;
  Ok (fst r).

(** [repr(self.paired_with)] *)
Definition pw_repr (p : PairedWith) : string :=
  match p with
  | PW_False => "False"
  | PW_True => "True"
  | PW_Expr e => repr e
  end.

(** [isinstance(n, renpy.ast.With) and n.expr == e] *)
Definition is_With_of (e : string) (n : Node) : bool :=
  match n with
  | With w => (with_expr w =? e)%string
  | _ => false
  end.

(** [block] and [index] are [self.block] and [self.index]: the block being
    rendered and the position of [ast] in it. *)
Definition print_with (block : list Node) (index : nat) (ast : WithNode)
           (s : Decompiler) : result Decompiler :=
  match paired ast with
  | Some p =>
      (* Sanity check. check if there's a matching with statement two nodes
         further *)
      match nth_error block (index + 2) with
      | None => Raise IndexError
      | Some sibling =>
          if negb (is_With_of p sibling) then
            Raise (Exception ("Unmatched paired with "
                              ++ pw_repr (paired_with s) ++ " != "
                              ++ repr (with_expr ast)))
          else Ok (set_paired_with (PW_Expr p) s)
      end
  | None =>
      if pw_truthy (paired_with s) then
        (* Check if it was consumed by a show/scene statement *)
        let s := match paired_with s with
                 | PW_True => s
                 | _ => write (" with " ++ with_expr ast) s
                 end in
        Ok (set_paired_with PW_False s)
      else
        Ok (set_paired_with PW_False
              (write ("with " ++ with_expr ast) (indent s)))
  end.

(** ** Flow control *)

(** [self.index and isinstance(self.block[self.index - 1], renpy.ast.Call)] *)
Definition after_call (block : list Node) (index : nat) : result bool :=
  match index with
  | O => Ok false
  | S i => match nth_error block i with
           | Some prev => Ok (is_Call prev)
           | None => Raise IndexError
           end
  end.

Definition print_jump (target : string) (expression : bool) (s : Decompiler)
  : Decompiler :=
  let s := write "jump " (indent s) in
  if expression then write ("expression " ++ target) s else write target s.

Definition print_call (label : string) (expression : bool)
           (args : option ArgumentInfo) (s : Decompiler) : Decompiler :=
  let s := write "call " (indent s) in
  let s := if expression then write ("expression " ++ label) s
           else write label s in
  match args with
  | Some a =>
      let s := if expression then write " pass " s else s in
      write (reconstruct_arginfo a) s
  | None => s
  end.

Definition print_return (expression : option string) (s : Decompiler)
  : Decompiler :=
  let s := write "return" (indent s) in
  match expression with
  | Some e => write (" " ++ e) s
  | None => s
  end.

Definition print_pass (block : list Node) (index : nat) (s : Decompiler)
  : result Decompiler :=
  c <- after_call block index ;;
  if negb c then Ok (write "pass" (indent s)) else Ok s.

(** [self.comparable and first.linenumber < second.linenumber] *)
Definition should_come_before (first second : Node) : result bool :=
  if comparable cfg then
    match node_linenumber first, node_linenumber second with
    | Some a, Some b => Ok (a <? b)
    | _, _ => Raise AttributeError
    end
  else Ok false.

(** ** Programming related functions *)

Definition print_python (source : string) (hide : bool) (early : bool)
           (s : Decompiler) : result Decompiler :=
  let s := indent s in
  match source with
  | EmptyString => Raise IndexError
  | String c code =>
      if Ascii.eqb c (ascii_of_nat 10) then
        let s := write "python" s in
        let s := if early then write " early" s else s in
        let s := if hide then write " hide" s else s in
        let s := write ":" s in
        let s := add_indent_level 1 s in
        let s := for_loop (fun line s => write line (indent s))
                          (split_logical_lines code) s in
        Ok (add_indent_level (-1) s)
      else Ok (write ("$ " ++ source) s)
  end.

Definition print_define (store : option string) (varname source : string)
           (s : Decompiler) : Decompiler :=
  let s := indent s in
  match store with
  | None => write ("define " ++ varname ++ " = " ++ source) s
  | Some st =>
      if (st =? "store")%string
      then write ("define " ++ varname ++ " = " ++ source) s
      else write ("define " ++ st ++ "." ++ varname ++ " = " ++ source) s
  end.

(** ** Specials *)

Definition is_some {A : Type} (o : option A) : bool :=
  match o with Some _ => true | None => false end.

(** The test of [print_say] under which the statement is kept for the menu
    that follows; [next_block.items[0]] raises on a menu without items. *)
Definition say_goes_inside_menu (block : list Node) (index : nat)
           (ast : SayNode) (inmenu : bool) : result bool :=
  if negb (interact ast) && negb inmenu && is_some (who ast)
     && negb (is_some (with_ ast)) && negb (is_some (attributes ast))
     && (index + 1 <? List.length block)%nat
  then
    match nth_error block (index + 1) with
    | None => Raise IndexError
    | Some next_block =>
        match next_block with
        | Menu _ _ _ items =>
            match items with
            | [] => Raise IndexError
            | (_, _, Some _) :: _ =>
                b <- should_come_before (Say ast) next_block ;;
                Ok (negb b)
            | (_, _, None) :: _ => Ok false
            end
        | _ => Ok false
        end
    end
  else Ok false.

Definition print_say (block : list Node) (index : nat) (ast : SayNode)
           (inmenu : bool) (s : Decompiler) : result Decompiler :=
  inside <- say_goes_inside_menu block index ast inmenu ;;
  if inside then Ok (set_say_inside_menu (Some ast) s)
  else
    let s := indent s in
    let s := match who ast with
             | Some w => write (w ++ " ") s
             | None => s
             end in
    let s := write (dquote ++ string_escape (what ast) ++ dquote) s in
    let s := if negb (interact ast) && negb inmenu
             then write " nointeract" s else s in
    let s := match with_ ast with
             | Some w => write (" with " ++ w) s
             | None => s
             end in
    Ok s.

Definition print_userstatement (line : string) (s : Decompiler) : Decompiler :=
  write line (indent s).

Definition print_style (ast : StyleNode) (s : Decompiler) : Decompiler :=
  let s := write ("style " ++ style_name ast) (indent s) in
  let kwargs : list string := [] in
  let kwargs := match parent ast with
                | Some p => append1 kwargs ("is " ++ p)
                | None => kwargs
                end in
  let kwargs := if clear ast then append1 kwargs "clear" else kwargs in
  let kwargs := match take ast with
                | Some t => append1 kwargs ("take " ++ t)
                | None => kwargs
                end in
  let kwargs :=
    fold_left (fun kwargs delname => append1 kwargs ("del " ++ delname))
              (delattr ast) kwargs in
  let kwargs := match variant ast with
                | Some v => append1 kwargs ("variant " ++ v)
                | None => kwargs
                end in
  let kwargs :=
    fold_left (fun kwargs kv => append1 kwargs (fst kv ++ " " ++ snd kv))
              (style_properties ast) kwargs in
  if comparable cfg then
    write (" " ++ String.concat " " kwargs) s
  else
    let s := write ":" s in
    let s := add_indent_level 1 s in
    let s := for_loop (fun i s => write i (indent s)) kwargs s in
    add_indent_level (-1) s.

(** ** Translation functions *)

(** ["%s" % language], where [language] may be [None]. *)
Definition str_language (language : option string) : string :=
  match language with
  | Some l => l
  | None => "None"
  end.

(** [language or "None"] *)
Definition language_or_None (language : option string) : string :=
  match language with
  | Some (String _ _ as l) => l
  | _ => "None"
  end.

(** [ast.language == other.language] *)
Definition language_eqb (a b : option string) : bool :=
  match a, b with
  | Some x, Some y => (x =? y)%string
  | None, None => true
  | _, _ => false
  end.

Definition print_translatestring (block : list Node) (index : nat)
           (linenumber : Z) (language : option string) (old new : string)
           (s : Decompiler) : result Decompiler :=
  (* Was the last node a translatestrings node? *)
  grouped <-
    match index with
    | O => Ok false
    | S i =>
        match nth_error block i with
        | Some (TranslateString _ l _ _) => Ok (language_eqb l language)
        | Some _ => Ok false
        | None => Raise IndexError
        end
    end ;;
  let s := if negb grouped
           then write ("translate " ++ str_language language ++ " strings:")
                      (indent s)
           else s in
  let s := advance_to_line linenumber s in
  let s := add_indent_level 1 s in
  let s := write ("old " ++ dquote ++ string_escape old ++ dquote) (indent s) in
  let s := write ("new " ++ dquote ++ string_escape new ++ dquote) (indent s) in
  Ok (add_indent_level (-1) s).

(** ** Screens *)

Definition print_screen (screen : ScreenObject) (s : Decompiler) : Decompiler :=
  match screen with
  | ScreenLang scr =>
      let r := screendecompiler_pprint scr (indent_level s) (linenumber s)
                 (force_multiline_kwargs cfg) (decompile_python cfg)
                 (decompile_screencode cfg) (comparable cfg)
                 (skip_indent_until_write s) in
      set_skip_indent_until_write false
        (set_linenumber (snd r) (set_out_file (out_file s ++ fst r) s))
  | SL2 scr =>
      let r := sl2decompiler_pprint scr (indent_level s) (linenumber s)
                 (force_multiline_kwargs cfg) (decompile_screencode cfg)
                 (comparable cfg) (skip_indent_until_write s) in
      set_skip_indent_until_write false
        (set_linenumber (snd r) (set_out_file (out_file s ++ fst r) s))
  | OtherScreen tag => print_unknown tag s
  end.

(** ** The traversal: [print_node] and [print_nodes] *)

(** The head of [print_node]: the line is advanced to [ast.linenumber]
    (never for a [TranslateString]), else to [ast.loc[1]]. *)
Definition advance_to_node (ast : Node) (s : Decompiler) : Decompiler :=
  if is_TranslateString ast then s
  else match node_linenumber ast with
       | Some l => advance_to_line l s
       | None => match ast with
                 | Unknown _ _ (Some loc) => advance_to_line (snd loc) s
                 | _ => s
                 end
       end.

(** Modelled from the spec: [DecompilerBase.print_nodes], which renders the
    nodes of a block in order, each "with read access to the enclosing block
    and current index", [extra_indent] levels deeper ("renders at depth+1");
    [print_node] is the renderer of one node. *)
Definition print_nodes_with
           (print_node : Node -> list Node -> nat -> Decompiler
                         -> result Decompiler)
           (ast : list Node) (extra_indent : Z) (s : Decompiler)
  : result Decompiler :=
  let s := add_indent_level extra_indent s in
  s <- for_each_indexed (fun i node s => print_node node ast i s) ast O s ;;
  Ok (add_indent_level (- extra_indent) s).

Definition node_language (n : Node) : option string :=
  match n with
  | TranslateString _ language _ _ => language
  | _ => None
  end.

(** The first test of [print_init]: the block is the implicit init block of
    its only statement. *)
Definition is_implicit_init (ast : Node) (priority : Z) (block : list Node)
  : result bool :=
  match block with
  | [child] =>
      if (priority =? -500) && match child with Screen _ _ => true
                                           | _ => false end
         || (priority =? 0) && match child with
                               | Define _ _ _ _ | Transform _ _ _ _
                               | Style _ => true
                               | _ => false
                               end
         || (priority =? 990) && match child with Image _ _ _ _ => true
                                             | _ => false end
      then b <- should_come_before ast child ;; Ok (negb b)
      else Ok false
  | _ => Ok false
  end.

(** The second test of [print_init]: translatestring statements are split
    apart and put in an init block. *)
Definition is_translatestring_init (priority : Z) (block : list Node) : bool :=
  match block with
  | first :: rest =>
      (priority =? 0) && forallb is_TranslateString block
      && forallb (fun i => language_eqb (node_language i)
                                        (node_language first)) rest
  | [] => false
  end.

(** [len(ast.block) == 1 and ast.linenumber >= ast.block[0].linenumber] *)
Definition init_on_one_line (linenumber : Z) (block : list Node)
  : result bool :=
  match block with
  | [child] => match node_linenumber child with
               | Some l => Ok (linenumber >=? l)
               | None => Raise AttributeError
               end
  | _ => Ok false
  end.

(** [print_node ast block index s]: the renderer of [ast], the node at
    position [index] of the block [block] being rendered.  The cases are
    the methods registered in [dispatch]; those that render a nested block
    ([print_label], [print_if], [print_while], [print_init], [print_menu],
    [print_translate], [print_translateblock]) are written out here. *)
Fixpoint print_node (ast : Node) (block : list Node) (index : nat)
         (s : Decompiler) {struct ast} : result Decompiler :=
  let s := advance_to_node ast s in
  match ast with
  | Image _ imgname code atl => Ok (print_image imgname code atl s)
  | Transform _ varname params atl =>
      Ok (print_transform varname params atl s)
  | Show _ imspec atl => print_show imspec atl s
  | ShowLayer _ layer at_list atl => Ok (print_showlayer layer at_list atl s)
  | Scene _ imspec layer atl => print_scene imspec layer atl s
  | Hide _ imspec => print_hide imspec s
  | With w => print_with block index w s
  | Label _ name params body =>
      c <- after_call block index ;;
      if c then Ok (write (" from " ++ name) s)
      else
        let s := write ("label " ++ name ++ reconstruct_paraminfo params ++ ":")
                       (indent s) in
        print_nodes_with print_node body 1 s
  | Jump _ target expression => Ok (print_jump target expression s)
  | Call _ label expression args => Ok (print_call label expression args s)
  | Return _ expression => Ok (print_return expression s)
  | If _ entries =>
      (* [first] is the state of First("if %s:", "elif %s:") *)
      r <- for_each_indexed
             (fun (i : nat) (entry : string * list Node)
                  (st : bool * Decompiler) =>
                let first := fst st in
                let s := indent (snd st) in
                let st :=
                  if (i + 1 =? List.length entries)%nat
                     && (strip (fst entry) =? "True")%string
                  then (first, write "else:" s)
                  else (false,
                        write ((if first then "if " else "elif ")
                               ++ fst entry ++ ":") s) in
                s <- print_nodes_with print_node (snd entry) 1 (snd st) ;;
                Ok (fst st, s))
             entries O (true, s) ;;
      Ok (snd r)
  | While _ condition body =>
      print_nodes_with print_node body 1
                       (write ("while " ++ condition ++ ":") (indent s))
  | Pass _ => print_pass block index s
  | Init linenumber priority body =>
      implicit <- is_implicit_init ast priority body ;;
      if implicit then
        (* If they fulfil this criteria we just print the contained
           statement *)
        print_nodes_with print_node body 0 s
      else if is_translatestring_init priority body then
        print_nodes_with print_node body 0 s
      else
        let s := write "init" (indent s) in
        let s := if negb (priority =? 0)
                 then write (" " ++ str_int priority) s else s in
        one_line <- init_on_one_line linenumber body ;;
        if one_line then
          let s := set_skip_indent_until_write true (write " " s) in
          print_nodes_with print_node body 0 s
        else
          print_nodes_with print_node body 1 (write ":" s)
  | Menu _ menu_with set items =>
      let s := write "menu:" (indent s) in
      let s := add_indent_level 1 s in
      s <- match say_inside_menu s with
           | Some say =>
               s <- print_say block index say true s ;;
               Ok (set_say_inside_menu None s)
           | None => Ok s
           end ;;
      let s := match menu_with with
               | Some w => write ("with " ++ w) (indent s)
               | None => s
               end in
      let s := match set with
               | Some e => write ("set " ++ e) (indent s)
               | None => s
               end in
      s <- for_each
             (fun (item : string * string * option (list Node))
                  (s : Decompiler) =>
                let label := fst (fst item) in
                let condition := snd (fst item) in
                let s := write (dquote ++ string_escape label ++ dquote)
                               (indent s) in
                match snd item with
                | Some body =>
                    let s := if negb (condition =? "True")%string
                             then write (" if " ++ condition) s else s in
                    print_nodes_with print_node body 1 (write ":" s)
                | None => Ok s
                end)
             items s ;;
      Ok (add_indent_level (-1) s)
  | Python _ source hide => print_python source hide false s
  | EarlyPython _ source hide => print_python source hide true s
  | Define _ store varname source => Ok (print_define store varname source s)
  | Say say => print_say block index say false s
  | UserStatement _ line => Ok (print_userstatement line s)
  | Style st => Ok (print_style st s)
  | Translate _ language identifier body =>
      print_nodes_with print_node body 1
        (write ("translate " ++ language_or_None language ++ " "
                ++ identifier ++ ":") (indent s))
  | EndTranslate _ =>
      (* an implicitly added node which does nothing... *)
      Ok s
  | TranslateString linenumber language old new =>
      print_translatestring block index linenumber language old new s
  | TranslateBlock _ language body =>
      let s := write ("translate " ++ language_or_None language ++ " ")
                     (indent s) in
      print_nodes_with print_node body 0 (set_skip_indent_until_write true s)
  | Screen _ screen => Ok (print_screen screen s)
  | Unknown tag _ _ => Ok (print_unknown tag s)
  end.

Definition print_nodes (ast : list Node) (extra_indent : Z) (s : Decompiler)
  : result Decompiler :=
  print_nodes_with print_node ast extra_indent s.

(** The body of the loop of [print_menu] over [ast.items], and the loop. *)
Definition print_menu_item (item : string * string * option (list Node))
           (s : Decompiler) : result Decompiler :=
  let label := fst (fst item) in
  let condition := snd (fst item) in
  let s := write (dquote ++ string_escape label ++ dquote) (indent s) in
  match snd item with
  | Some body =>
      let s := if negb (condition =? "True")%string
               then write (" if " ++ condition) s else s in
      print_nodes body 1 (write ":" s)
  | None => Ok s
  end.

Definition print_menu_items
  : list (string * string * option (list Node)) -> Decompiler
    -> result Decompiler :=
  for_each print_menu_item.

(** [print_menu], as the [Menu] case of [print_node] has it. *)
Definition print_menu (block : list Node) (index : nat)
           (menu_with set : option string)
           (items : list (string * string * option (list Node)))
           (s : Decompiler) : result Decompiler :=
  let s := write "menu:" (indent s) in
  let s := add_indent_level 1 s in
  s <- match say_inside_menu s with
       | Some say =>
           s <- print_say block index say true s ;;
           Ok (set_say_inside_menu None s)
       | None => Ok s
       end ;;
  let s := match menu_with with
           | Some w => write ("with " ++ w) (indent s)
           | None => s
           end in
  let s := match set with
           | Some e => write ("set " ++ e) (indent s)
           | None => s
           end in
  s <- print_menu_items items s ;;
  Ok (add_indent_level (-1) s).

(** ** Main API *)

Definition banner : string :=
  "# Decompiled by unrpyc (https://github.com/CensoredUsername/unrpyc".

(** The fields [Decompiler.__init__] sets, around the line number the base
    class starts from. *)
Definition new_Decompiler (linenumber : Z) : Decompiler :=
  mkDecompiler EmptyString linenumber 0 false PW_False None.

(** Modelled from the spec: [DecompilerBase.dump], which takes the
    indentation depth and the initial "skip next indent" flag and renders the
    statement sequence. *)
Definition base_dump (ast : list Node) (indent_level : Z)
           (skip_indent_until_write : bool) (s : Decompiler)
  : result Decompiler :=
  print_nodes ast 0
    (set_skip_indent_until_write skip_indent_until_write
       (set_indent_level indent_level s)).

Definition dump (ast : list Node) (indent_level : Z) (s : Decompiler)
  : result Decompiler :=
  let s := if negb (comparable cfg) then write banner s else s in
  (* Avoid an initial blank line if we don't write out the above banner *)
  s <- base_dump ast indent_level (comparable cfg) s ;;
  Ok (write nl s). (* end file with a newline *)

(** ** Vocabulary of the properties *)

(** [frame k s s']: from [s] to [s'] the indentation depth moved by [k] and
    the two pending registers did not change. *)
Definition frame (k : Z) (s s' : Decompiler) : Prop :=
  indent_level s' = indent_level s + k
  /\ paired_with s' = paired_with s
  /\ say_inside_menu s' = say_inside_menu s.

(** [keeps_indent r s]: when the renderer returned, the depth is the one of
    [s]. *)
Definition keeps_indent (r : result Decompiler) (s : Decompiler) : Prop :=
  forall s', r = Ok s' -> indent_level s' = indent_level s.

(** What the induction proves of a node. *)
Definition node_keeps_indent (ast : Node) : Prop :=
  forall block index s, keeps_indent (print_node ast block index s) s.

(** The header line of a multi-line code block. *)
Definition python_header (early hide : bool) : string :=
  "python" ++ (if early then " early" else EmptyString)
           ++ (if hide then " hide" else EmptyString) ++ ":".

(** The clauses [print_imspec] writes, in order. *)
Definition imspec_text (imspec : ImSpec) : string :=
  match im_expression imspec with
  | Some e => "expression " ++ e
  | None => String.concat " " (im_name imspec)
  end
  ++ match im_tag imspec with
     | Some tag => " as " ++ tag
     | None => EmptyString
     end
  ++ match im_behind imspec with
     | _ :: _ => " behind " ++ String.concat ", " (im_behind imspec)
     | [] => EmptyString
     end
  ++ (if (im_layer imspec =? "master")%string then EmptyString
      else " onlayer " ++ im_layer imspec)
  ++ match im_zorder imspec with
     | Some z => " zorder " ++ z
     | None => EmptyString
     end
  ++ match im_at_list imspec with
     | _ :: _ => " at " ++ String.concat ", " (im_at_list imspec)
     | [] => EmptyString
     end.

(** What [print_imspec] returns: the last [at] expression ends with a
    space. *)
Definition imspec_ends_with_space (imspec : ImSpec) : bool :=
  match im_at_list imspec with
  | _ :: _ =>
      match last_char (last (im_at_list imspec) EmptyString) with
      | Some c => Ascii.eqb c " "%char
      | None => false
      end
  | [] => false
  end.

(** The space [print_show] and [print_scene] put before [with]. *)
Definition with_separator (imspec : ImSpec) : string :=
  if imspec_ends_with_space imspec then EmptyString else " ".

(** [imspec[3][-1][-1]] is defined: the last [at] expression, if any, is not
    the empty string. *)
Definition imspec_ok (imspec : ImSpec) : Prop :=
  im_at_list imspec = [] \/ last (im_at_list imspec) EmptyString <> EmptyString.

(** The [at] clause of [print_showlayer]. *)
Definition at_clause (at_list : list string) : string :=
  match at_list with
  | _ :: _ => " at " ++ String.concat ", " at_list
  | [] => EmptyString
  end.

(** The same transition recorded on another line. *)
Definition reline (l : Z) (w : WithNode) : WithNode :=
  {| with_linenumber := l; with_expr := with_expr w; paired := paired w |}.

(** The line [print_say] writes when it renders the statement in place. *)
Definition say_text (ast : SayNode) (inmenu : bool) : string :=
  match who ast with
  | Some w => w ++ " "
  | None => EmptyString
  end
  ++ dquote ++ string_escape (what ast) ++ dquote
  ++ (if negb (interact ast) && negb inmenu then " nointeract"
      else EmptyString)
  ++ match with_ ast with
     | Some w => " with " ++ w
     | None => EmptyString
     end.

(** The statement can be kept at all: interaction is off, there is a
    speaker, and there is neither a [with] clause nor attributes. *)
Definition say_can_wait (ast : SayNode) : Prop :=
  interact ast = false /\ who ast <> None /\ with_ ast = None
  /\ attributes ast = None.

(** The next statement of the block is a menu whose first entry has a block,
    and in comparable mode the menu is not recorded after the statement. *)
Definition menu_takes_say (block : list Node) (index : nat) (ast : SayNode)
  : Prop :=
  exists ml mw ms label condition body rest,
    nth_error block (index + 1)
    = Some (Menu ml mw ms ((label, condition, Some body) :: rest))
    /\ (comparable cfg = false \/ ml <= say_linenumber ast).

(** The next statement of the block is a menu without entries. *)
Definition menu_without_items (block : list Node) (index : nat) : Prop :=
  exists ml mw ms, nth_error block (index + 1) = Some (Menu ml mw ms []).

(** The statements whose implicit init block has priority 0. *)
Definition is_declaration (n : Node) : bool :=
  match n with
  | Define _ _ _ _ | Transform _ _ _ _ | Style _ => true
  | _ => false
  end.

(** [extends s s']: the text written up to [s'] starts with the text written
    up to [s]. *)
Definition extends (s s' : Decompiler) : Prop :=
  exists text : string, out_file s' = out_file s ++ text.

(** [keeps_prefix r s]: when the renderer returned, it has only appended to
    the text of [s]. *)
Definition keeps_prefix (r : result Decompiler) (s : Decompiler) : Prop :=
  forall s', r = Ok s' -> extends s s'.

(** What the induction proves of a node. *)
Definition node_keeps_prefix (ast : Node) : Prop :=
  forall block index s, keeps_prefix (print_node ast block index s) s.

Definition is_With (n : Node) : bool :=
  match n with With _ => true | _ => false end.

Definition is_Menu (n : Node) : bool :=
  match n with Menu _ _ _ _ => true | _ => false end.

(** [registers_back s s']: a register that is pending in [s'] was pending
    in [s] already. *)
Definition registers_back (s s' : Decompiler) : Prop :=
  (paired_with s' <> PW_False -> paired_with s <> PW_False)
  /\ (say_inside_menu s' <> None -> say_inside_menu s <> None).

(** What the induction proves of a node about the two registers: a register
    left pending by the node either was pending before it, and the node is
    not the one that clears it, or was set by the node, and then the
    statement that clears it is in the block: a transition two positions
    further for the paired [with], a menu at the next position for the
    dialogue. *)
Definition node_resolves (ast : Node) : Prop :=
  forall block index s s',
    print_node ast block index s = Ok s' ->
    (paired_with s' <> PW_False ->
     (paired_with s <> PW_False /\ is_With ast = false)
     \/ (exists w, nth_error block (index + 2) = Some (With w)))
    /\ (say_inside_menu s' <> None ->
        (say_inside_menu s <> None /\ is_Menu ast = false)
        \/ (exists m, nth_error block (index + 1) = Some m
                      /\ is_Menu m = true)).

(** [keeps_registers r s]: when the renderer returned, it has left no
    register pending that was not pending in [s]. *)
Definition keeps_registers (r : result Decompiler) (s : Decompiler) : Prop :=
  forall s', r = Ok s' -> registers_back s s'.

(** The header of the entry at position [i] of a conditional with [count]
    entries. *)
Definition if_header (count i : nat) (condition : string) : string :=
  if (i + 1 =? count)%nat && (strip condition =? "True")%string then "else:"
  else (if (i =? 0)%nat then "if " else "elif ") ++ condition ++ ":".

(** An entry of a conditional: its header, then its block one level
    deeper. *)
Definition print_if_entry (count i : nat) (entry : string * list Node)
           (s : Decompiler) : result Decompiler :=
  print_nodes (snd entry) 1
              (write (if_header count i (fst entry)) (indent s)).

(** The line on which the block of a handler of an [on] statement is
    recorded ([block.loc[1]]), the rendering of one handler (the body of the
    loop of [print_atl_rawon]), and handlers in ascending order of their
    lines. *)
Definition handler_line (handler : string * RawBlock) : Z :=
  snd (block_loc (snd handler)).

Definition print_handler (handler : string * RawBlock) (s : Decompiler)
  : Decompiler :=
  print_atl (snd handler) (write ("on " ++ fst handler ++ ":") (indent s)).

Definition ascending_lines : list (string * RawBlock) -> Prop :=
  StronglySorted (fun a b => handler_line a <= handler_line b).

(** The handlers of [handlers] that are recorded on [line], in the order of
    [handlers]. *)
Definition handlers_on_line (line : Z) (handlers : list (string * RawBlock))
  : list (string * RawBlock) :=
  filter (fun handler => handler_line handler =? line) handlers.

(** * Properties *)

(** ** The registers the formatting engine leaves alone *)

Lemma frame_refl (s : Decompiler) : frame 0 s s.
Proof. unfold frame; repeat split; lia. Qed.

Lemma frame_trans (j k : Z) (s1 s2 s3 : Decompiler) :
  frame j s1 s2 -> frame k s2 s3 -> frame (j + k) s1 s3.
Proof.
  unfold frame; intros (H1 & H2 & H3) (H4 & H5 & H6).
  repeat split; try congruence; lia.
Qed.

Lemma frame_write (text : string) (s : Decompiler) : frame 0 s (write text s).
Proof. unfold frame; simpl; repeat split; lia. Qed.

Lemma frame_indent (s : Decompiler) : frame 0 s (indent s).
Proof.
  unfold indent; destruct (skip_indent_until_write s);
    [apply frame_refl | apply frame_write].
Qed.

Lemma frame_advance_to_line (target : Z) (s : Decompiler) :
  frame 0 s (advance_to_line target s).
Proof.
  unfold advance_to_line.
  destruct (linenumber s <? target); [| apply frame_refl].
  destruct (comparable cfg); unfold frame; simpl; repeat split; lia.
Qed.

Lemma frame_add_indent_level (k : Z) (s : Decompiler) :
  frame k s (add_indent_level k s).
Proof. unfold frame; simpl; repeat split; lia. Qed.

Lemma frame_print_unknown (tag : string) (s : Decompiler) :
  frame 0 s (print_unknown tag s).
Proof.
  unfold print_unknown.
  apply (frame_trans (frame_indent s) (frame_write _ _)).
Qed.

(** A step of shift [0] after a shift [k]. *)
Lemma frame_step (k : Z) (s1 s2 s3 : Decompiler) :
  frame k s1 s2 -> frame 0 s2 s3 -> frame k s1 s3.
Proof.
  intros H1 H2. replace k with (k + 0) by lia. eapply frame_trans; eauto.
Qed.

(** Chains of engine calls: peel the outermost call. *)
Ltac frame_chain :=
  repeat first
    [ apply frame_refl
    | match goal with
      | |- frame _ ?s (write _ ?s) => apply frame_write
      | |- frame _ ?s (indent ?s) => apply frame_indent
      | |- frame _ ?s (advance_to_line _ ?s) => apply frame_advance_to_line
      | |- frame _ ?s (print_unknown _ ?s) => apply frame_print_unknown
      | |- frame _ _ (write _ _) =>
          eapply frame_step; [| apply frame_write]
      | |- frame _ _ (indent _) =>
          eapply frame_step; [| apply frame_indent]
      | |- frame _ _ (advance_to_line _ _) =>
          eapply frame_step; [| apply frame_advance_to_line]
      | |- frame _ _ (print_unknown _ _) =>
          eapply frame_step; [| apply frame_print_unknown]
      | |- frame _ _ (if ?b then _ else _) => destruct b
      | |- frame _ _ (match ?o with Some _ => _ | None => _ end) =>
          destruct o
      end ].

Lemma frame_for_loop (A : Type) (body : A -> Decompiler -> Decompiler)
      (l : list A) :
  Forall (fun x => forall s, frame 0 s (body x s)) l ->
  forall s, frame 0 s (for_loop body l s).
Proof.
  induction 1 as [| x rest Hx _ IH]; intros s; simpl.
  - apply frame_refl.
  - eapply frame_step; [apply Hx | apply IH].
Qed.

Lemma frame_print_atl_rawmulti (ast : RawMultipurpose) (s : Decompiler) :
  frame 0 s (print_atl_rawmulti ast s).
Proof. unfold print_atl_rawmulti. frame_chain. Qed.

(** ** Induction over the trees *)

(** The induction principles of [Node], [AtlNode] and [RawBlock] state their
    hypotheses on nested lists, pairs and options with [list_all],
    [prod_all] and [option_all]; these lemmas turn them into [Forall]. *)
Polymorphic Lemma list_all_Forall (A : Type) (P : A -> Prop) (l : list A) :
  list_all A P l -> Forall P l.
Proof. induction 1; constructor; assumption. Qed.

Polymorphic Lemma list_all_snd_Forall (A B : Type) (Q : B -> Prop) (l : list (A * B)) :
  list_all (A * B) (prod_all A (fun _ => unit) B Q) l ->
  Forall (fun p => Q (snd p)) l.
Proof.
  induction 1 as [| p Hp rest _ IH]; constructor; [| assumption].
  destruct Hp; assumption.
Qed.

Polymorphic Lemma list_all_blocks_Forall (A : Type) (P : Node -> Prop)
      (l : list (A * list Node)) :
  list_all (A * list Node)
           (prod_all A (fun _ => unit) (list Node) (list_all Node P)) l ->
  Forall (fun p => Forall P (snd p)) l.
Proof.
  induction 1 as [| p Hp rest _ IH]; constructor; [| assumption].
  destruct Hp; simpl. apply list_all_Forall; assumption.
Qed.

Polymorphic Lemma list_all_items_Forall (A : Type) (P : Node -> Prop)
      (l : list (A * option (list Node))) :
  list_all (A * option (list Node))
           (prod_all A (fun _ => unit) (option (list Node))
                     (option_all (list Node) (list_all Node P))) l ->
  Forall (fun item => match snd item with
                      | Some body => Forall P body
                      | None => True
                      end) l.
Proof.
  induction 1 as [| p Hp rest _ IH]; constructor; [| assumption].
  destruct Hp as [a _ o Ho]; simpl.
  destruct Ho; [apply list_all_Forall; assumption | exact I].
Qed.

Lemma Forall_insert_by (A : Type) (P : A -> Prop) (key : A -> Z) (x : A)
      (l : list A) :
  P x -> Forall P l -> Forall P (insert_by key x l).
Proof.
  intros Hx; induction 1 as [| y rest Hy Hrest IH]; simpl.
  - constructor; [assumption | constructor].
  - destruct (key x <=? key y); repeat constructor; assumption.
Qed.

Lemma Forall_sorted (A : Type) (P : A -> Prop) (key : A -> Z) (l : list A) :
  Forall P l -> Forall P (sorted key l).
Proof.
  induction 1; simpl; [constructor | apply Forall_insert_by; assumption].
Qed.

(** ** The motion renderers keep the registers *)

Lemma frame_print_atl_both :
  (forall a : AtlNode, forall s, frame 0 s (print_atl_node a s))
  /\ (forall b : RawBlock, forall s, frame 0 s (print_atl b s)).
Proof.
  assert (Hblock : forall loc statements,
             list_all AtlNode
                      (fun a => forall s, frame 0 s (print_atl_node a s))
                      statements ->
             forall s, frame 0 s (print_atl (mkRawBlock loc statements) s)).
  { intros loc statements IH s. apply list_all_Forall in IH. simpl.
    replace 0 with (0 + 1 + 0 + -1) by lia.
    eapply frame_trans; [| apply frame_add_indent_level].
    eapply frame_trans;
      [eapply frame_trans;
       [apply frame_advance_to_line | apply frame_add_indent_level] |].
    destruct statements as [| a rest].
    - frame_chain.
    - apply frame_for_loop. exact IH. }
  assert (Hnode : forall a : AtlNode, forall s, frame 0 s (print_atl_node a s)).
  { apply (@AtlNode_block_ind
             (fun a => forall s, frame 0 s (print_atl_node a s))
             (fun b => forall s, frame 0 s (print_atl b s)));
      try exact Hblock; try (intros; simpl; frame_chain; fail).
    - (* RawMultipurpose *)
      intros loc m s; simpl.
      eapply frame_step;
        [apply frame_advance_to_line | apply frame_print_atl_rawmulti].
    - (* RawBlock *)
      intros b IH s; simpl.
      eapply frame_step; [| apply IH]. frame_chain.
    - (* RawChild *)
      intros loc children IH s; simpl.
      eapply frame_step; [apply frame_advance_to_line |].
      apply frame_for_loop. apply list_all_Forall in IH.
      eapply Forall_impl; [| exact IH]. intros b Hb s'; simpl in *.
      eapply frame_step; [| apply Hb]. frame_chain.
    - (* RawChoice *)
      intros loc choices IH s; simpl.
      eapply frame_step; [apply frame_advance_to_line |].
      apply frame_for_loop. apply list_all_snd_Forall in IH.
      eapply Forall_impl; [| exact IH]. intros b Hb s'; simpl in *.
      eapply frame_step; [| apply Hb]. frame_chain.
    - (* RawOn *)
      intros loc handlers IH s; simpl.
      eapply frame_step; [apply frame_advance_to_line |].
      apply frame_for_loop. apply list_all_snd_Forall in IH.
      assert (Hitems :
                Forall (fun event : string * (Z * (Decompiler -> Decompiler)) =>
                          forall s, frame 0 s (snd (snd event) s))
                       (map (fun item : string * RawBlock =>
                               (fst item, (snd (block_loc (snd item)),
                                           print_atl (snd item)))) handlers)).
      { apply Forall_map. eapply Forall_impl; [| exact IH].
        intros item Hitem; simpl. exact Hitem. }
      destruct (comparable cfg);
        [apply (Forall_sorted (fun i => fst (snd i))) in Hitems |];
        (eapply Forall_impl; [| exact Hitems]); intros ev Hev s'; simpl;
        (eapply frame_step; [| apply Hev]); frame_chain.
    - (* RawParallel *)
      intros loc blocks IH s; simpl.
      eapply frame_step; [apply frame_advance_to_line |].
      apply frame_for_loop. apply list_all_Forall in IH.
      eapply Forall_impl; [| exact IH]. intros b Hb s'; simpl in *.
      eapply frame_step; [| apply Hb]. frame_chain. }
  split; [exact Hnode |].
  intros [loc statements]. apply Hblock.
  induction statements; constructor; auto.
Qed.

Lemma frame_print_atl_node (a : AtlNode) (s : Decompiler) :
  frame 0 s (print_atl_node a s).
Proof. apply frame_print_atl_both. Qed.

Lemma frame_print_atl (b : RawBlock) (s : Decompiler) :
  frame 0 s (print_atl b s).
Proof. apply frame_print_atl_both. Qed.

Lemma frame_print_atl_of (atl : option RawBlock) (s : Decompiler) :
  frame 0 s (print_atl_of atl s).
Proof.
  destruct atl as [b |]; simpl; [| apply frame_refl].
  eapply frame_step; [apply frame_write | apply frame_print_atl].
Qed.

(** ** Indentation depth through the engine and the leaf renderers *)

Lemma indent_level_write (text : string) (s : Decompiler) :
  indent_level (write text s) = indent_level s.
Proof. reflexivity. Qed.

Lemma indent_level_indent (s : Decompiler) :
  indent_level (indent s) = indent_level s.
Proof. destruct (frame_indent s) as [H _]; lia. Qed.

Lemma indent_level_advance_to_line (target : Z) (s : Decompiler) :
  indent_level (advance_to_line target s) = indent_level s.
Proof. destruct (frame_advance_to_line target s) as [H _]; lia. Qed.

Lemma indent_level_print_unknown (tag : string) (s : Decompiler) :
  indent_level (print_unknown tag s) = indent_level s.
Proof. destruct (frame_print_unknown tag s) as [H _]; lia. Qed.

Lemma indent_level_print_atl (b : RawBlock) (s : Decompiler) :
  indent_level (print_atl b s) = indent_level s.
Proof. destruct (frame_print_atl b s) as [H _]; lia. Qed.

Lemma indent_level_print_atl_of (atl : option RawBlock) (s : Decompiler) :
  indent_level (print_atl_of atl s) = indent_level s.
Proof. destruct (frame_print_atl_of atl s) as [H _]; lia. Qed.

Lemma indent_level_add_indent_level (k : Z) (s : Decompiler) :
  indent_level (add_indent_level k s) = indent_level s + k.
Proof. reflexivity. Qed.

Lemma indent_level_set_paired_with (p : PairedWith) (s : Decompiler) :
  indent_level (set_paired_with p s) = indent_level s.
Proof. reflexivity. Qed.

Lemma indent_level_set_say_inside_menu (o : option SayNode) (s : Decompiler) :
  indent_level (set_say_inside_menu o s) = indent_level s.
Proof. reflexivity. Qed.

Lemma indent_level_set_skip_indent_until_write (b : bool) (s : Decompiler) :
  indent_level (set_skip_indent_until_write b s) = indent_level s.
Proof. reflexivity. Qed.

Lemma indent_level_set_linenumber (l : Z) (s : Decompiler) :
  indent_level (set_linenumber l s) = indent_level s.
Proof. reflexivity. Qed.

Lemma indent_level_set_out_file (o : string) (s : Decompiler) :
  indent_level (set_out_file o s) = indent_level s.
Proof. reflexivity. Qed.

Lemma indent_level_write_lines (lines : list string) (s : Decompiler) :
  indent_level (for_loop (fun line s => write line (indent s)) lines s)
  = indent_level s.
Proof.
  revert s; induction lines as [| l rest IH]; intros s; simpl; [reflexivity |].
  rewrite IH, indent_level_write, indent_level_indent. reflexivity.
Qed.

Create Rewrite HintDb indent_db.
#[local] Hint Rewrite indent_level_write indent_level_indent
  indent_level_advance_to_line indent_level_print_unknown
  indent_level_print_atl indent_level_print_atl_of
  indent_level_add_indent_level indent_level_set_paired_with
  indent_level_set_say_inside_menu indent_level_set_skip_indent_until_write
  indent_level_set_linenumber indent_level_set_out_file
  indent_level_write_lines : indent_db.

(** Splits the tests met in the goal, then rewrites the depth down to the
    one of the initial state. *)
Ltac indent_cases :=
  repeat match goal with
         | |- context [if ?b then _ else _] => destruct b
         | |- context [match ?o with Some _ => _ | None => _ end] =>
             destruct o
         | |- context [match ?l with nil => _ | cons _ _ => _ end] =>
             destruct l
         | |- context [match ?str with EmptyString => _ | String _ _ => _ end] =>
             destruct str
         end.

Ltac indent_solve :=
  indent_cases; simpl; autorewrite with indent_db; try reflexivity; try lia.

Lemma keeps_indent_Ok (s0 s : Decompiler) :
  indent_level s0 = indent_level s -> keeps_indent (Ok s0) s.
Proof. intros H s' E; inversion E; subst; assumption. Qed.

Lemma keeps_indent_Raise (e : PyError) (s : Decompiler) :
  keeps_indent (Raise e) s.
Proof. intros s' E; discriminate. Qed.

Lemma keeps_indent_eq (r : result Decompiler) (s1 s2 : Decompiler) :
  indent_level s1 = indent_level s2 -> keeps_indent r s1 -> keeps_indent r s2.
Proof. unfold keeps_indent; intros H K s' E. rewrite <- H. auto. Qed.

Lemma print_imspec_indent (imspec : ImSpec) (s : Decompiler)
      (r : Decompiler * bool) :
  print_imspec imspec s = Ok r -> indent_level (fst r) = indent_level s.
Proof.
  unfold print_imspec. intros H.
  destruct (im_at_list imspec) as [| a rest].
  - inversion H; subst; simpl. indent_solve.
  - destruct (last_char _); [| discriminate].
    inversion H; subst; simpl. indent_solve.
Qed.

Lemma indent_level_write_paired_with (b : bool) (s : Decompiler) :
  indent_level (write_paired_with b s) = indent_level s.
Proof. unfold write_paired_with. indent_solve. Qed.

Lemma print_show_indent (imspec : ImSpec) (atl : option RawBlock)
      (s : Decompiler) :
  keeps_indent (print_show imspec atl s) s.
Proof.
  unfold print_show. intros s' H.
  destruct (print_imspec imspec _) as [r |] eqn:E; simpl in H; [| discriminate].
  apply print_imspec_indent in E. inversion H; subst.
  rewrite indent_level_print_atl_of, indent_level_write_paired_with, E.
  indent_solve.
Qed.

Lemma print_scene_indent (imspec : option ImSpec) (layer : string)
      (atl : option RawBlock) (s : Decompiler) :
  keeps_indent (print_scene imspec layer atl s) s.
Proof.
  unfold print_scene. intros s' H.
  destruct imspec as [imspec |]; simpl in H.
  - destruct (print_imspec imspec _) as [r |] eqn:E; simpl in H;
      [| discriminate].
    apply print_imspec_indent in E. inversion H; subst; simpl.
    rewrite indent_level_print_atl_of, indent_level_write_paired_with, E.
    indent_solve.
  - inversion H; subst.
    rewrite indent_level_print_atl_of, indent_level_write_paired_with.
    indent_solve.
Qed.

Lemma print_hide_indent (imspec : ImSpec) (s : Decompiler) :
  keeps_indent (print_hide imspec s) s.
Proof.
  unfold print_hide. intros s' H.
  destruct (print_imspec imspec _) as [r |] eqn:E; simpl in H; [| discriminate].
  apply print_imspec_indent in E. inversion H; subst. rewrite E. indent_solve.
Qed.

Lemma print_with_indent (block : list Node) (index : nat) (ast : WithNode)
      (s : Decompiler) :
  keeps_indent (print_with block index ast s) s.
Proof.
  unfold print_with. intros s' H.
  destruct (paired ast).
  - destruct (nth_error block (index + 2)); [| discriminate].
    destruct (negb _); [discriminate |]. inversion H; subst. reflexivity.
  - destruct (pw_truthy _); inversion H; subst; clear H;
      [destruct (paired_with s) |]; indent_solve.
Qed.

Lemma print_pass_indent (block : list Node) (index : nat) (s : Decompiler) :
  keeps_indent (print_pass block index s) s.
Proof.
  unfold print_pass. intros s' H.
  destruct (after_call block index) as [c |]; simpl in H; [| discriminate].
  destruct c; simpl in H; inversion H; subst; indent_solve.
Qed.

Lemma print_python_indent (source : string) (hide early : bool)
      (s : Decompiler) :
  keeps_indent (print_python source hide early s) s.
Proof.
  unfold print_python. intros s' H.
  destruct source as [| c code]; [discriminate |].
  destruct (Ascii.eqb c _); inversion H; subst; clear H; indent_solve.
Qed.

Lemma print_say_indent (block : list Node) (index : nat) (ast : SayNode)
      (inmenu : bool) (s : Decompiler) :
  keeps_indent (print_say block index ast inmenu s) s.
Proof.
  unfold print_say. intros s' H.
  destruct (say_goes_inside_menu _ _ _ _) as [inside |]; simpl in H;
    [| discriminate].
  destruct inside; inversion H; subst; clear H; indent_solve.
Qed.

Lemma print_translatestring_indent (block : list Node) (index : nat)
      (line : Z) (language : option string) (old new : string)
      (s : Decompiler) :
  keeps_indent (print_translatestring block index line language old new s) s.
Proof.
  unfold print_translatestring. intros s' H.
  match type of H with bind ?g _ = _ => destruct g as [grouped |] end;
    simpl in H; [| discriminate].
  inversion H; subst; clear H. indent_solve.
Qed.

Lemma indent_level_print_style (ast : StyleNode) (s : Decompiler) :
  indent_level (print_style ast s) = indent_level s.
Proof.
  unfold print_style. destruct (comparable cfg); simpl;
    autorewrite with indent_db; try reflexivity; lia.
Qed.

Lemma indent_level_print_screen (screen : ScreenObject) (s : Decompiler) :
  indent_level (print_screen screen s) = indent_level s.
Proof. destruct screen; simpl; autorewrite with indent_db; reflexivity. Qed.

Lemma indent_level_advance_to_node (ast : Node) (s : Decompiler) :
  indent_level (advance_to_node ast s) = indent_level s.
Proof.
  unfold advance_to_node. destruct (is_TranslateString ast); [reflexivity |].
  destruct (node_linenumber ast); [indent_solve |].
  destruct ast; try reflexivity. destruct loc; indent_solve.
Qed.

(** ** Indentation depth through the traversal *)

Lemma bind_Ok (A B : Type) (r : result A) (k : A -> result B) (b : B) :
  bind r k = Ok b -> exists a, r = Ok a /\ k a = Ok b.
Proof. destruct r as [a |]; simpl; [eauto | discriminate]. Qed.

Lemma for_each_preserves (A S : Type) (f : S -> Z)
      (body : A -> S -> result S) (l : list A) :
  Forall (fun x => forall s s', body x s = Ok s' -> f s' = f s) l ->
  forall s s', for_each body l s = Ok s' -> f s' = f s.
Proof.
  induction 1 as [| x rest Hx _ IH]; intros s s' H; simpl in H.
  - inversion H; reflexivity.
  - apply bind_Ok in H as (s1 & H1 & H2).
    rewrite (IH _ _ H2). eapply Hx; eassumption.
Qed.

Lemma for_each_indexed_preserves (A S : Type) (f : S -> Z)
      (body : nat -> A -> S -> result S) (l : list A) :
  Forall (fun x => forall i s s', body i x s = Ok s' -> f s' = f s) l ->
  forall i s s', for_each_indexed body l i s = Ok s' -> f s' = f s.
Proof.
  induction 1 as [| x rest Hx _ IH]; intros i s s' H; simpl in H.
  - inversion H; reflexivity.
  - apply bind_Ok in H as (s1 & H1 & H2).
    rewrite (IH _ _ _ H2). eapply Hx; eassumption.
Qed.

Lemma print_nodes_with_indent (ast : list Node) :
  Forall node_keeps_indent ast ->
  forall extra_indent s,
    keeps_indent (print_nodes_with print_node ast extra_indent s) s.
Proof.
  intros Hast extra_indent s s' H. unfold print_nodes_with in H.
  apply bind_Ok in H as (s1 & H1 & H2). inversion H2; subst; clear H2.
  apply (for_each_indexed_preserves indent_level) in H1.
  - rewrite indent_level_add_indent_level, H1,
      indent_level_add_indent_level. lia.
  - eapply Forall_impl; [| exact Hast].
    intros node Hnode i s2 s3 E. exact (Hnode ast i s2 s3 E).
Qed.

Lemma print_nodes_with_indent_from (ast : list Node) (s0 : Decompiler) :
  Forall node_keeps_indent ast ->
  forall extra_indent s,
    indent_level s = indent_level s0 ->
    keeps_indent (print_nodes_with print_node ast extra_indent s) s0.
Proof.
  intros Hast extra_indent s E.
  eapply keeps_indent_eq; [exact E |]. apply print_nodes_with_indent; exact Hast.
Qed.

#[local] Hint Rewrite indent_level_advance_to_node indent_level_print_style
  indent_level_print_screen indent_level_write_paired_with : indent_db.

(** A leaf renderer that cannot raise. *)
Ltac indent_leaf :=
  apply keeps_indent_Ok;
  unfold print_image, print_transform, print_showlayer, print_jump,
    print_call, print_return, print_define, print_userstatement;
  indent_solve.

(** A leaf renderer that can raise, from the lemma about it. *)
Ltac indent_leaf_from lemma :=
  eapply keeps_indent_eq; [apply indent_level_advance_to_node | apply lemma].

Lemma print_node_indent (ast : Node) : node_keeps_indent ast.
Proof.
  apply (@Node_ind node_keeps_indent); unfold node_keeps_indent.
  - intros; simpl; indent_leaf.
  - intros; simpl; indent_leaf.
  - intros; simpl; indent_leaf_from print_show_indent.
  - intros; simpl; indent_leaf.
  - intros; simpl; indent_leaf_from print_scene_indent.
  - intros; simpl; indent_leaf_from print_hide_indent.
  - intros; simpl; indent_leaf_from print_with_indent.
  - (* Label *)
    intros ln name params body IH block index s; simpl.
    apply list_all_Forall in IH.
    destruct (after_call block index) as [c |]; simpl;
      [| apply keeps_indent_Raise].
    destruct c; [indent_leaf |].
    apply print_nodes_with_indent_from; [exact IH | indent_solve].
  - intros; simpl; indent_leaf.
  - intros; simpl; indent_leaf.
  - intros; simpl; indent_leaf.
  - (* If *)
    intros ln entries IH block index s s' H; simpl in H.
    apply list_all_blocks_Forall in IH.
    apply bind_Ok in H as (r & H1 & H2). inversion H2; subst; clear H2.
    apply (for_each_indexed_preserves (fun st => indent_level (snd st)))
      in H1; [simpl in H1; rewrite H1; indent_solve |].
    eapply Forall_impl; [| exact IH].
    intros entry Hentry i st st' E.
    apply bind_Ok in E as (s1 & E1 & E2). inversion E2; subst; clear E2.
    simpl. eapply print_nodes_with_indent_from; [exact Hentry | | exact E1].
    destruct (_ && _); simpl; indent_solve.
  - (* While *)
    intros ln condition body IH block index s; simpl.
    apply list_all_Forall in IH.
    apply print_nodes_with_indent_from; [exact IH | indent_solve].
  - intros; simpl; indent_leaf_from print_pass_indent.
  - (* Init *)
    intros ln priority body IH block index s; simpl.
    apply list_all_Forall in IH.
    destruct (is_implicit_init _ _ _) as [implicit |]; simpl;
      [| apply keeps_indent_Raise].
    destruct implicit;
      [apply print_nodes_with_indent_from; [exact IH | indent_solve] |].
    destruct (is_translatestring_init _ _);
      [apply print_nodes_with_indent_from; [exact IH | indent_solve] |].
    destruct (init_on_one_line _ _) as [one_line |]; simpl;
      [| apply keeps_indent_Raise].
    destruct one_line;
      (apply print_nodes_with_indent_from; [exact IH | indent_solve]).
  - (* Menu *)
    intros ln menu_with set items IH block index s s' H; simpl in H.
    apply list_all_items_Forall in IH.
    apply bind_Ok in H as (s1 & H1 & H2).
    apply bind_Ok in H2 as (s2 & H2 & H3). inversion H3; subst; clear H3.
    assert (E1 : indent_level s1 = indent_level s + 1).
    { destruct (say_inside_menu _) as [say |].
      - apply bind_Ok in H1 as (s3 & H1 & H3). inversion H3; subst; clear H3.
        apply print_say_indent in H1. simpl in H1 |- *. rewrite H1.
        autorewrite with indent_db. reflexivity.
      - inversion H1; subst; clear H1. indent_solve. }
    apply (for_each_preserves indent_level) in H2.
    + rewrite indent_level_add_indent_level, H2.
      transitivity (indent_level s1 + -1); [indent_solve | lia].
    + eapply Forall_impl; [| exact IH].
      intros [[label condition] [body |]] Hitem s3 s4 E; simpl in *.
      * eapply print_nodes_with_indent_from; [exact Hitem | | exact E].
        indent_solve.
      * inversion E; subst. indent_solve.
  - intros; simpl; indent_leaf_from print_python_indent.
  - intros; simpl; indent_leaf_from print_python_indent.
  - intros; simpl; indent_leaf.
  - intros; simpl; indent_leaf_from print_say_indent.
  - intros; simpl; indent_leaf.
  - intros; simpl; apply keeps_indent_Ok; indent_solve.
  - (* Translate *)
    intros ln language identifier body IH block index s; simpl.
    apply list_all_Forall in IH.
    apply print_nodes_with_indent_from; [exact IH | indent_solve].
  - intros; simpl; apply keeps_indent_Ok; indent_solve.
  - intros; simpl; indent_leaf_from print_translatestring_indent.
  - (* TranslateBlock *)
    intros ln language body IH block index s; simpl.
    apply list_all_Forall in IH.
    apply print_nodes_with_indent_from; [exact IH | indent_solve].
  - intros; simpl; apply keeps_indent_Ok; indent_solve.
  - intros; simpl; apply keeps_indent_Ok; indent_solve.
Qed.

(** C3 (indentation-depth invariant).  Rendering a motion block leaves the
    indentation depth as it found it; and whenever the rendering of a block
    of statements, or of one statement, returns, the depth of the state it
    returns is the depth of the state it started from: every renderer that
    increments [indent_level] has decremented it again. *)
Theorem indentation_depth_restored :
  (forall (b : RawBlock) (s : Decompiler),
      indent_level (print_atl b s) = indent_level s)
  /\ (forall (ast : list Node) (extra_indent : Z) (s s' : Decompiler),
         print_nodes ast extra_indent s = Ok s' ->
         indent_level s' = indent_level s)
  /\ (forall (ast : Node) (block : list Node) (index : nat)
             (s s' : Decompiler),
         print_node ast block index s = Ok s' ->
         indent_level s' = indent_level s).
Proof.
  split; [exact indent_level_print_atl | split].
  - intros ast extra_indent s s' H.
    apply (@print_nodes_with_indent ast) with (extra_indent := extra_indent);
      [| exact H].
    apply Forall_forall. intros node _. apply print_node_indent.
  - intros ast block index s s' H. exact (print_node_indent ast _ _ _ H).
Qed.

(** ** Output text *)

Lemma append_assoc (a b c : string) : (a ++ b) ++ c = a ++ b ++ c.
Proof. induction a as [| ch a IH]; simpl; [| rewrite IH]; reflexivity. Qed.

Lemma append_nil_r (a : string) : a ++ EmptyString = a.
Proof. induction a as [| ch a IH]; simpl; [| rewrite IH]; reflexivity. Qed.

(** Two writes in a row are one write of the two texts. *)
Lemma write_write (a b : string) (s : Decompiler) :
  write b (write a s) = write (a ++ b) s.
Proof. unfold write; simpl. rewrite append_assoc. reflexivity. Qed.

Lemma out_file_write (text : string) (s : Decompiler) :
  out_file (write text s) = out_file s ++ text.
Proof. reflexivity. Qed.

Lemma out_file_add_indent_level (k : Z) (s : Decompiler) :
  out_file (add_indent_level k s) = out_file s.
Proof. reflexivity. Qed.

(** In comparable mode [advance_to_line] writes nothing. *)
Lemma out_file_advance_to_line_comparable (target : Z) (s : Decompiler) :
  comparable cfg = true -> out_file (advance_to_line target s) = out_file s.
Proof.
  intros H. unfold advance_to_line. rewrite H.
  destruct (linenumber s <? target); reflexivity.
Qed.

Lemma loc_eqb_eq (a b : Loc) : loc_eqb a b = true <-> a = b.
Proof.
  destruct a as [f l], b as [g m]; unfold loc_eqb; simpl.
  rewrite andb_true_iff, String.eqb_eq, Z.eqb_eq.
  split; [intros [-> ->]; reflexivity | intros E; inversion E; auto].
Qed.

(** ** Rendering of a motion block without statements *)

(** C7, amended (empty motion block).  A motion block without statements
    renders nothing when the mode is comparable and its recorded location is
    the placeholder [('', 0)]; in every other case, whatever the location,
    it renders the line [pass] one level deeper.  A block with statements
    renders its statements and nothing of its own. *)
Theorem print_atl_empty_block (loc : Loc) (s : Decompiler) :
  let inside := add_indent_level 1 (advance_to_line (snd loc) s) in
  (comparable cfg = true -> loc = (EmptyString, 0) ->
   out_file (print_atl (mkRawBlock loc []) s) = out_file s)
  /\ (comparable cfg = false \/ loc <> (EmptyString, 0) ->
      print_atl (mkRawBlock loc []) s
      = add_indent_level (-1) (write "pass" (indent inside)))
  /\ (forall (a : AtlNode) (rest : list AtlNode),
         print_atl (mkRawBlock loc (a :: rest)) s
         = add_indent_level (-1) (for_loop print_atl_node (a :: rest) inside)).
Proof.
  intros inside; repeat split.
  - intros Hc ->. simpl. rewrite Hc; simpl.
    apply out_file_advance_to_line_comparable; exact Hc.
  - intros H. simpl.
    destruct H as [Hc | Hloc]; [rewrite Hc; reflexivity |].
    destruct (loc_eqb loc (EmptyString, 0)) eqn:E.
    + apply loc_eqb_eq in E. contradiction.
    + rewrite orb_true_r. reflexivity.
Qed.

(** ** Rendering of embedded code *)

(** C9 (embedded code).  On the empty source the renderer raises the
    out-of-bounds error of [code[0]].  On a non-empty source it returns: a
    source that starts with a newline gives the header line and the logical
    lines of the rest one level deeper, any other source gives the single
    line [$ <code>]. *)
Theorem print_python_branches (hide early : bool) (s : Decompiler) :
  print_python EmptyString hide early s = Raise IndexError
  /\ (forall source : string,
         source <> EmptyString ->
         exists s', print_python source hide early s = Ok s')
  /\ (forall code : string,
         print_python (nl ++ code) hide early s
         = Ok (add_indent_level (-1)
                 (for_loop (fun line s => write line (indent s))
                           (split_logical_lines code)
                           (add_indent_level 1
                              (write (python_header early hide) (indent s))))))
  /\ (forall (c : ascii) (code : string),
         c <> ascii_of_nat 10 ->
         print_python (String c code) hide early s
         = Ok (write ("$ " ++ String c code) (indent s))).
Proof.
  repeat split.
  - intros [| c code] H; [contradiction |].
    unfold print_python. destruct (Ascii.eqb c _); eauto.
  - intros code. unfold print_python, python_header; simpl.
    destruct early, hide; simpl; rewrite ?write_write; reflexivity.
  - intros c code H. unfold print_python.
    destruct (Ascii.eqb c (ascii_of_nat 10)) eqn:E; [| reflexivity].
    apply Ascii.eqb_eq in E. contradiction.
Qed.

(** ** Menu entries *)

Lemma print_node_Menu (linenumber : Z) (menu_with set : option string)
      (items : list (string * string * option (list Node)))
      (block : list Node) (index : nat) (s : Decompiler) :
  print_node (Menu linenumber menu_with set items) block index s
  = print_menu block index menu_with set items (advance_to_line linenumber s).
Proof. reflexivity. Qed.




(** ** Display directives and the paired [with] register *)

Lemma last_char_None (str : string) : last_char str = None -> str = EmptyString.
Proof.
  induction str as [| c rest IH]; simpl; [reflexivity |].
  destruct rest; [discriminate |]. intros H. apply IH in H. discriminate.
Qed.

Lemma write_nothing_more (a : string) (s : Decompiler) :
  write a s = write (a ++ EmptyString) s.
Proof. rewrite append_nil_r; reflexivity. Qed.

Lemma print_imspec_text (imspec : ImSpec) (s : Decompiler) :
  imspec_ok imspec ->
  print_imspec imspec s
  = Ok (write (imspec_text imspec) s, imspec_ends_with_space imspec).
Proof.
  intros Hok. unfold print_imspec, imspec_text, imspec_ends_with_space.
  assert (Hlast : forall a rest,
             im_at_list imspec = a :: rest ->
             last_char (last (a :: rest) EmptyString) <> None).
  { intros a rest E H. apply last_char_None in H.
    destruct Hok as [Hok | Hok]; [congruence |]. rewrite E in Hok. auto. }
  destruct (im_at_list imspec) as [| a rest] eqn:Eat.
  - f_equal. f_equal.
    destruct (im_expression imspec), (im_tag imspec), (im_behind imspec),
      (im_layer imspec =? "master")%string, (im_zorder imspec); simpl;
      rewrite ?write_write, ?append_assoc, ?append_nil_r; reflexivity.
  - specialize (Hlast a rest eq_refl).
    destruct (last_char (last (a :: rest) EmptyString)) as [c |];
      [| contradiction].
    f_equal. f_equal.
    destruct (im_expression imspec), (im_tag imspec), (im_behind imspec),
      (im_layer imspec =? "master")%string, (im_zorder imspec); simpl;
      rewrite ?write_write, ?append_assoc, ?append_nil_r; reflexivity.
Qed.

(** With the register armed, the clause [with <expr>] is written and the
    register is marked as consumed. *)
Lemma write_paired_with_armed (needs_space : bool) (e : string)
      (s : Decompiler) :
  paired_with s = PW_Expr e -> e <> EmptyString ->
  write_paired_with needs_space s
  = set_paired_with PW_True
      (write ((if needs_space then " " else EmptyString) ++ "with " ++ e) s).
Proof.
  intros Hp He. unfold write_paired_with. rewrite Hp.
  destruct e as [| c e]; [contradiction |]. simpl pw_truthy. cbv iota.
  destruct needs_space; simpl; rewrite ?write_write, ?Hp; reflexivity.
Qed.

Lemma paired_with_write (text : string) (s : Decompiler) :
  paired_with (write text s) = paired_with s.
Proof. reflexivity. Qed.

Lemma paired_with_indent (s : Decompiler) :
  paired_with (indent s) = paired_with s.
Proof. apply frame_indent. Qed.

Lemma paired_with_advance_to_line (target : Z) (s : Decompiler) :
  paired_with (advance_to_line target s) = paired_with s.
Proof. apply frame_advance_to_line. Qed.

Lemma paired_with_print_atl_of (atl : option RawBlock) (s : Decompiler) :
  paired_with (print_atl_of atl s) = paired_with s.
Proof. apply frame_print_atl_of. Qed.

(** [print_show] with the register armed. *)
Lemma print_show_armed (e : string) (imspec : ImSpec) (atl : option RawBlock)
      (s : Decompiler) :
  paired_with s = PW_Expr e -> e <> EmptyString -> imspec_ok imspec ->
  print_show imspec atl s
  = Ok (print_atl_of atl
          (set_paired_with PW_True
             (write ("show " ++ imspec_text imspec
                     ++ with_separator imspec ++ "with " ++ e)
                    (indent s)))).
Proof.
  intros Hp He Hok. unfold print_show.
  rewrite (print_imspec_text _ Hok); simpl.
  rewrite (@write_paired_with_armed _ e);
    [| rewrite !paired_with_write, paired_with_indent; exact Hp | exact He].
  unfold with_separator. rewrite !write_write.
  destruct (imspec_ends_with_space imspec); reflexivity.
Qed.

(** C5, amended (consumption of the paired [with] register).  With the
    register armed with [e], a show and a scene statement write their line
    with [with e] appended and mark the register as consumed.  A hide and a
    show-layer statement write their line without that clause and leave the
    register armed; the transition that comes next then appends its own
    [ with <expr>] to the current line and clears the register. *)
Theorem display_directives_and_paired_with (e : string) (s : Decompiler) :
  paired_with s = PW_Expr e -> e <> EmptyString ->
  (forall (imspec : ImSpec) (atl : option RawBlock),
      imspec_ok imspec ->
      print_show imspec atl s
      = Ok (print_atl_of atl
              (set_paired_with PW_True
                 (write ("show " ++ imspec_text imspec
                         ++ with_separator imspec ++ "with " ++ e)
                        (indent s)))))
  /\ (forall (imspec : ImSpec) (layer : string) (atl : option RawBlock),
         imspec_ok imspec ->
         print_scene (Some imspec) layer atl s
         = Ok (print_atl_of atl
                 (set_paired_with PW_True
                    (write ("scene " ++ imspec_text imspec
                            ++ with_separator imspec ++ "with " ++ e)
                           (indent s)))))
  /\ (forall (layer : string) (atl : option RawBlock),
         print_scene None layer atl s
         = Ok (print_atl_of atl
                 (set_paired_with PW_True
                    (write ("scene"
                            ++ (if (layer =? "master")%string then EmptyString
                                else " onlayer " ++ layer)
                            ++ " with " ++ e)
                           (indent s)))))
  /\ (forall imspec : ImSpec,
         imspec_ok imspec ->
         print_hide imspec s
         = Ok (write ("hide " ++ imspec_text imspec) (indent s))
         /\ paired_with (write ("hide " ++ imspec_text imspec) (indent s))
            = PW_Expr e)
  /\ (forall (layer : string) (at_list : list string) (atl : option RawBlock),
         print_showlayer layer at_list atl s
         = print_atl_of atl
             (write ("show layer " ++ layer ++ at_clause at_list) (indent s))
         /\ paired_with (print_showlayer layer at_list atl s) = PW_Expr e)
  /\ (forall (block : list Node) (index : nat) (w : WithNode),
         paired w = None ->
         print_with block index w s
         = Ok (set_paired_with PW_False (write (" with " ++ with_expr w) s))).
Proof.
  intros Hp He.
  assert (Hi : forall text, paired_with (write text (indent s)) = PW_Expr e).
  { intros text. rewrite paired_with_write, paired_with_indent. exact Hp. }
  split; [| split; [| split; [| split; [| split]]]].
  - intros imspec atl Hok. apply print_show_armed; assumption.
  - intros imspec layer atl Hok. unfold print_scene.
    rewrite (print_imspec_text _ Hok); simpl.
    rewrite (@write_paired_with_armed _ e); [| apply Hi | exact He].
    unfold with_separator. rewrite !write_write.
    destruct (imspec_ends_with_space imspec); simpl;
      rewrite ?append_assoc; reflexivity.
  - intros layer atl. unfold print_scene; simpl.
    rewrite (@write_paired_with_armed _ e);
      [| destruct (negb _); rewrite ?paired_with_write, paired_with_indent;
         exact Hp | exact He].
    destruct (layer =? "master")%string; simpl; rewrite !write_write;
      simpl; rewrite ?append_assoc; reflexivity.
  - intros imspec Hok. split; [| apply Hi].
    unfold print_hide. rewrite (print_imspec_text _ Hok); simpl.
    rewrite write_write. reflexivity.
  - intros layer at_list atl. split.
    + unfold print_showlayer, at_clause.
      destruct at_list; rewrite ?write_write, ?append_nil_r; reflexivity.
    + unfold print_showlayer.
      rewrite paired_with_print_atl_of.
      destruct at_list; rewrite ?paired_with_write, paired_with_indent;
        exact Hp.
  - intros block index w Hw. unfold print_with. rewrite Hw, Hp.
    destruct e as [| c e]; [contradiction | reflexivity].
Qed.

(** ** Resolution of a paired [with] *)

Lemma add_indent_level_0 (s : Decompiler) : add_indent_level 0 s = s.
Proof.
  destruct s; unfold add_indent_level, set_indent_level; simpl.
  f_equal. lia.
Qed.

(** A block is rendered statement by statement. *)
Lemma print_nodes_0 (ast : list Node) (s : Decompiler) :
  print_nodes ast 0 s
  = for_each_indexed (fun i node s => print_node node ast i s) ast O s.
Proof.
  unfold print_nodes, print_nodes_with. rewrite add_indent_level_0.
  destruct (for_each_indexed _ ast O s) as [s' |]; simpl; [| reflexivity].
  rewrite add_indent_level_0. reflexivity.
Qed.

(** C1 (pairing resolution).  Take a block made of a transition paired with
    the non-empty expression [A], a show statement and a third statement.
    When the third statement is the transition of expression [A], rendering
    returns: it arms the register, writes the line of the show statement with
    [with A] appended and marks the register as consumed, renders the motion
    block if there is one, and for the trailing transition only advances the
    line and clears the register, writing no [with] line.  When the third
    statement is not a transition of expression [A], rendering raises the
    "Unmatched paired with" exception. *)
Theorem paired_with_resolution
        (A own_expr : string) (wl sl : Z) (imspec : ImSpec)
        (atl : option RawBlock) (third : Node) (s : Decompiler) :
  A <> EmptyString -> imspec_ok imspec ->
  let first := With {| with_linenumber := wl; with_expr := own_expr;
                       paired := Some A |} in
  let block := [first; Show sl imspec atl; third] in
  (forall tl : Z,
      third = With {| with_linenumber := tl; with_expr := A;
                      paired := None |} ->
      print_nodes block 0 s
      = Ok (set_paired_with PW_False
              (advance_to_line tl
                 (print_atl_of atl
                    (set_paired_with PW_True
                       (write ("show " ++ imspec_text imspec
                               ++ with_separator imspec ++ "with " ++ A)
                          (indent
                             (advance_to_line sl
                                (set_paired_with (PW_Expr A)
                                   (advance_to_line wl s))))))))))
  /\ (is_With_of A third = false ->
      print_nodes block 0 s
      = Raise (Exception ("Unmatched paired with "
                          ++ pw_repr (paired_with s) ++ " != "
                          ++ repr own_expr))).
Proof.
  intros HA Hok first block. split.
  - intros tl ->. rewrite print_nodes_0. subst block first.
    cbn [for_each_indexed bind print_node advance_to_node is_TranslateString
         node_linenumber with_linenumber].
    unfold print_with at 1.
    cbn [paired nth_error Nat.add is_With_of with_expr].
    rewrite String.eqb_refl. cbn [negb bind].
    rewrite (@print_show_armed A imspec atl);
      [| rewrite paired_with_advance_to_line; reflexivity | exact HA
       | exact Hok].
    cbn [bind].
    unfold print_with. cbn [paired].
    rewrite paired_with_advance_to_line, paired_with_print_atl_of.
    reflexivity.
  - intros Hthird. rewrite print_nodes_0. subst block first.
    cbn [for_each_indexed bind print_node advance_to_node is_TranslateString
         node_linenumber with_linenumber].
    unfold print_with.
    cbn [paired nth_error Nat.add with_expr].
    rewrite Hthird, paired_with_advance_to_line. reflexivity.
Qed.

(** ** The error of an unmatched paired [with] *)

Lemma is_With_of_reline (e : string) (l : Z) (w : WithNode) :
  is_With_of e (With (reline l w)) = is_With_of e (With w).
Proof. reflexivity. Qed.

(** C8, amended (report of a pairing failure).  When the statement two
    positions after a paired transition is not a transition of the paired
    expression, rendering that transition aborts with an exception whose
    message is of the form "Unmatched paired with <x> != <y>".  The error
    carries no recorded line: it is the same whatever the lines recorded for
    the transition and for its sibling. *)
Theorem unmatched_paired_with_error
        (before after : list Node) (index : nat) (ast : WithNode) (p : string)
        (sibling : Node) (s : Decompiler) :
  paired ast = Some p ->
  List.length before = (index + 2)%nat ->
  is_With_of p sibling = false ->
  (exists x y : string,
      print_with (before ++ sibling :: after) index ast s
      = Raise (Exception ("Unmatched paired with " ++ x ++ " != " ++ y))
      /\ print_node (With ast) (before ++ sibling :: after) index s
         = Raise (Exception ("Unmatched paired with " ++ x ++ " != " ++ y)))
  /\ (forall l : Z,
         print_with (before ++ sibling :: after) index (reline l ast) s
         = print_with (before ++ sibling :: after) index ast s)
  /\ (forall (l : Z) (w : WithNode),
         sibling = With w ->
         print_with (before ++ With (reline l w) :: after) index ast s
         = print_with (before ++ sibling :: after) index ast s).
Proof.
  intros Hp Hlen Hsib.
  assert (Hnth : forall n, nth_error (before ++ n :: after) (index + 2)
                           = Some n).
  { intros n. rewrite nth_error_app2 by lia.
    replace (index + 2 - List.length before)%nat with O by lia. reflexivity. }
  split; [| split].
  - exists (pw_repr (paired_with s)), (repr (with_expr ast)). split.
    + unfold print_with. rewrite Hp, Hnth, Hsib. reflexivity.
    + cbn [print_node advance_to_node is_TranslateString node_linenumber].
      unfold print_with. cbn [negb].
      rewrite Hp, Hnth, Hsib, paired_with_advance_to_line. reflexivity.
  - intros l. unfold print_with. simpl. rewrite Hp. reflexivity.
  - intros l w ->. unfold print_with.
    rewrite Hp, (Hnth (With (reline l w))), (Hnth (With w)).
    rewrite is_With_of_reline. reflexivity.
Qed.

(** ** Dialogue kept for the menu that follows *)

(** Brings both sides of an equation between written texts to one form. *)
Ltac text_norm :=
  repeat (progress (cbn [append];
                    rewrite ?write_write, ?append_assoc, ?append_nil_r)).

Lemma print_say_in_place (block : list Node) (index : nat) (ast : SayNode)
      (inmenu : bool) (s : Decompiler) :
  say_goes_inside_menu block index ast inmenu = Ok false ->
  print_say block index ast inmenu s
  = Ok (write (say_text ast inmenu) (indent s)).
Proof.
  intros H. unfold print_say, say_text. rewrite H; simpl.
  unfold dquote.
  destruct (who ast), (negb (interact ast) && negb inmenu), (with_ ast);
    cbn [bind]; text_norm; reflexivity.
Qed.

Lemma say_can_wait_true (ast : SayNode) :
  say_can_wait ast ->
  negb (interact ast) && negb false && is_some (who ast)
  && negb (is_some (with_ ast)) && negb (is_some (attributes ast)) = true.
Proof.
  intros (H1 & H2 & H3 & H4). rewrite H1, H3, H4.
  destruct (who ast); [reflexivity | contradiction].
Qed.

Lemma say_can_wait_false (ast : SayNode) :
  ~ say_can_wait ast ->
  negb (interact ast) && negb false && is_some (who ast)
  && negb (is_some (with_ ast)) && negb (is_some (attributes ast)) = false.
Proof.
  intros H. unfold say_can_wait in H.
  destruct (interact ast), (who ast), (with_ ast), (attributes ast);
    try reflexivity.
  exfalso; apply H; repeat split; discriminate.
Qed.

(** C4, amended (deferral of a say statement).  A say statement is kept for
    the menu, and so renders nothing at its own position, exactly when its
    interaction is off, it has a speaker, no [with] clause and no attributes,
    the next statement of the block is a menu whose first entry has a block
    (whether or not that entry has a condition), and, in comparable mode, the
    menu is not recorded on a later line.  In every other case it is rendered
    in place, unless the menu that follows has no entry at all, where the
    test raises. *)
Theorem say_deferral (block : list Node) (index : nat) (ast : SayNode)
        (s : Decompiler) :
  (say_can_wait ast /\ menu_takes_say block index ast ->
   print_say block index ast false s = Ok (set_say_inside_menu (Some ast) s))
  /\ (~ (say_can_wait ast /\ menu_takes_say block index ast) ->
      ~ (say_can_wait ast /\ menu_without_items block index) ->
      print_say block index ast false s
      = Ok (write (say_text ast false) (indent s)))
  /\ (say_can_wait ast /\ menu_without_items block index ->
      print_say block index ast false s = Raise IndexError).
Proof.
  split; [| split].
  - intros [Hw (ml & mw & ms & label & condition & body & rest & Hnth & Hl)].
    unfold print_say, say_goes_inside_menu.
    rewrite (say_can_wait_true Hw), Hnth. simpl andb.
    assert (Hlt : (index + 1 <? List.length block)%nat = true).
    { apply Nat.ltb_lt. apply nth_error_Some. rewrite Hnth. discriminate. }
    rewrite Hlt. unfold should_come_before. simpl node_linenumber.
    destruct Hl as [Hc | Hle].
    + rewrite Hc. reflexivity.
    + destruct (comparable cfg); [| reflexivity].
      replace (say_linenumber ast <? ml) with false
        by (symmetry; apply Z.ltb_ge; exact Hle).
      reflexivity.
  - intros Hnot Hempty. apply print_say_in_place.
    unfold say_goes_inside_menu.
    destruct (negb (interact ast) && negb false && is_some (who ast)
              && negb (is_some (with_ ast))
              && negb (is_some (attributes ast))) eqn:Ewait;
      [| reflexivity].
    assert (Hw : say_can_wait ast).
    { destruct (interact ast) eqn:E1, (who ast) eqn:E2, (with_ ast) eqn:E3,
        (attributes ast) eqn:E4; try discriminate.
      unfold say_can_wait. rewrite E1, E2, E3, E4.
      repeat split; discriminate. }
    simpl andb.
    destruct (index + 1 <? List.length block)%nat eqn:Hlt; [| reflexivity].
    destruct (nth_error block (index + 1)) as [next |] eqn:Hnth.
    2:{ apply Nat.ltb_lt in Hlt. apply nth_error_Some in Hlt. contradiction. }
    destruct next; try reflexivity.
    destruct items as [| [[label condition] [body |]] rest]; [| | reflexivity].
    + exfalso. apply Hempty. split; [exact Hw |]. unfold menu_without_items.
      do 3 eexists. exact Hnth.
    + unfold should_come_before. simpl node_linenumber.
      destruct (comparable cfg) eqn:Hc.
      * destruct (say_linenumber ast <? linenumber0) eqn:Hl; [reflexivity |].
        exfalso. apply Hnot. split; [exact Hw |].
        unfold menu_takes_say. apply Z.ltb_ge in Hl.
        do 7 eexists. split; [exact Hnth | right; exact Hl].
      * exfalso. apply Hnot. split; [exact Hw |].
        unfold menu_takes_say.
        do 7 eexists. split; [exact Hnth | left; exact Hc].
  - intros [Hw (ml & mw & ms & Hnth)].
    unfold print_say, say_goes_inside_menu.
    rewrite (say_can_wait_true Hw), Hnth. simpl andb.
    assert (Hlt : (index + 1 <? List.length block)%nat = true).
    { apply Nat.ltb_lt. apply nth_error_Some. rewrite Hnth. discriminate. }
    rewrite Hlt. reflexivity.
Qed.

(** ** Implicit init blocks *)

(** C6, amended (collapsing of an implicit init block).  An init block of
    priority 0 around one declaration (define, transform or style) renders
    as the declaration alone unless the mode is comparable and the line
    recorded for the block is before the line recorded for the declaration;
    in that case, an init block recorded on an earlier line in comparable
    mode, the block is written out as [init:] with the declaration one level
    deeper.  An init block recorded on a later line than its declaration is
    collapsed in both modes. *)
Theorem implicit_init_collapsing
        (linenumber child_line : Z) (child : Node) (block : list Node)
        (index : nat) (s : Decompiler) :
  is_declaration child = true ->
  node_linenumber child = Some child_line ->
  (comparable cfg = false \/ child_line <= linenumber ->
   print_node (Init linenumber 0 [child]) block index s
   = print_nodes [child] 0 (advance_to_line linenumber s))
  /\ (comparable cfg = true -> linenumber < child_line ->
      print_node (Init linenumber 0 [child]) block index s
      = print_nodes [child] 1
          (write "init:" (indent (advance_to_line linenumber s)))).
Proof.
  intros Hdecl Hline.
  assert (Himplicit :
            is_implicit_init (Init linenumber 0 [child]) 0 [child]
            = Ok (negb (comparable cfg && (linenumber <? child_line)))).
  { unfold is_implicit_init, should_come_before.
    cbn [Z.eqb andb orb node_linenumber]. rewrite Hline.
    destruct child; try discriminate; simpl; destruct (comparable cfg);
      reflexivity. }
  assert (Hstrings : is_translatestring_init 0 [child] = false).
  { destruct child; try discriminate; reflexivity. }
  split.
  - intros H.
    cbn [print_node advance_to_node is_TranslateString node_linenumber].
    rewrite Himplicit.
    replace (comparable cfg && (linenumber <? child_line)) with false;
      [reflexivity |].
    destruct H as [-> | H]; [reflexivity |].
    symmetry. apply andb_false_intro2. apply Z.ltb_ge. exact H.
  - intros Hc Hlt.
    cbn [print_node advance_to_node is_TranslateString node_linenumber].
    rewrite Himplicit, Hc, Hstrings.
    replace (linenumber <? child_line) with true
      by (symmetry; apply Z.ltb_lt; exact Hlt).
    cbn [andb negb bind Z.eqb]. unfold init_on_one_line. rewrite Hline.
    replace (linenumber >=? child_line) with false
      by (symmetry; rewrite Z.geb_leb; apply Z.leb_gt; exact Hlt).
    cbn [bind]. rewrite write_write. reflexivity.
Qed.

(** ** Event handlers in comparable mode *)

Lemma insert_by_comm (A : Type) (key : A -> Z) (x y : A) (l : list A) :
  key x <> key y ->
  insert_by key x (insert_by key y l) = insert_by key y (insert_by key x l).
Proof.
  intros Hxy. induction l as [| z rest IH]; simpl.
  - destruct (key x <=? key y) eqn:E1, (key y <=? key x) eqn:E2;
      try reflexivity; exfalso.
    + apply Z.leb_le in E1, E2. lia.
    + apply Z.leb_gt in E1, E2. lia.
  - destruct (key y <=? key z) eqn:Ey, (key x <=? key z) eqn:Ex; simpl;
      rewrite ?Ex, ?Ey.
    + destruct (key x <=? key y) eqn:E1, (key y <=? key x) eqn:E2;
        try reflexivity; exfalso.
      * apply Z.leb_le in E1, E2. lia.
      * apply Z.leb_gt in E1, E2. lia.
    + replace (key x <=? key y) with false; [reflexivity |].
      symmetry. apply Z.leb_gt. apply Z.leb_le in Ey. apply Z.leb_gt in Ex.
      lia.
    + replace (key y <=? key x) with false; [reflexivity |].
      symmetry. apply Z.leb_gt. apply Z.leb_le in Ex. apply Z.leb_gt in Ey.
      lia.
    + rewrite IH. reflexivity.
Qed.

(** With pairwise distinct keys, [sorted] forgets the order of its input. *)
Lemma sorted_Permutation (A : Type) (key : A -> Z) (l1 l2 : list A) :
  Permutation l1 l2 -> NoDup (map key l1) -> sorted key l1 = sorted key l2.
Proof.
  induction 1 as [| x l l' _ IH | x y l | l l' l'' H1 IH1 H2 IH2];
    intros Hnodup; simpl in *.
  - reflexivity.
  - inversion Hnodup; subst. rewrite IH by assumption. reflexivity.
  - apply insert_by_comm. inversion Hnodup as [| ? ? Hin _]; subst.
    intros E. apply Hin. left. symmetry. exact E.
  - rewrite IH1 by assumption. apply IH2.
    eapply Permutation_NoDup; [apply Permutation_map; exact H1 | exact Hnodup].
Qed.

Lemma insert_by_rearranges (A : Type) (key : A -> Z) (x : A) (l : list A) :
  Permutation (x :: l) (insert_by key x l).
Proof.
  induction l as [| y rest IH]; simpl; [reflexivity |].
  destruct (key x <=? key y); [reflexivity |].
  etransitivity; [apply perm_swap | apply perm_skip; exact IH].
Qed.

Lemma sorted_rearranges (A : Type) (key : A -> Z) (l : list A) :
  Permutation l (sorted key l).
Proof.
  induction l as [| x rest IH]; simpl; [constructor |].
  etransitivity; [apply perm_skip; exact IH | apply insert_by_rearranges].
Qed.

Lemma insert_by_ascending (A : Type) (key : A -> Z) (x : A) (l : list A) :
  StronglySorted (fun a b => key a <= key b) l ->
  StronglySorted (fun a b => key a <= key b) (insert_by key x l).
Proof.
  induction 1 as [| y rest Hrest IH Hy]; simpl.
  - constructor; constructor.
  - destruct (key x <=? key y) eqn:E.
    + apply Z.leb_le in E.
      constructor; [constructor; assumption |].
      constructor; [exact E |].
      eapply Forall_impl; [| exact Hy]. intros z Hz. simpl in *. lia.
    + apply Z.leb_gt in E. constructor; [exact IH |].
      apply (Permutation_Forall (insert_by_rearranges key x rest)).
      constructor; [lia | exact Hy].
Qed.

Lemma sorted_ascending (A : Type) (key : A -> Z) (l : list A) :
  StronglySorted (fun a b => key a <= key b) (sorted key l).
Proof.
  induction l as [| x rest IH]; simpl;
    [constructor | apply insert_by_ascending; exact IH].
Qed.

(** The sort is stable: the elements of one key keep their order. *)
Lemma insert_by_filter (A : Type) (key : A -> Z) (x : A) (l : list A)
      (n : Z) :
  filter (fun y => key y =? n) (insert_by key x l)
  = filter (fun y => key y =? n) (x :: l).
Proof.
  induction l as [| y rest IH]; [reflexivity |].
  cbn [insert_by]. destruct (key x <=? key y) eqn:E; [reflexivity |].
  apply Z.leb_gt in E. cbn [filter] in *. rewrite IH.
  destruct (key x =? n) eqn:Ex; [| reflexivity].
  apply Z.eqb_eq in Ex.
  replace (key y =? n) with false; [reflexivity |].
  symmetry. apply Z.eqb_neq. lia.
Qed.

Lemma sorted_filter (A : Type) (key : A -> Z) (l : list A) (n : Z) :
  filter (fun y => key y =? n) (sorted key l)
  = filter (fun y => key y =? n) l.
Proof.
  induction l as [| x rest IH]; [reflexivity |].
  change (sorted key (x :: rest)) with (insert_by key x (sorted key rest)).
  rewrite insert_by_filter. cbn [filter]. rewrite IH. reflexivity.
Qed.

Lemma insert_by_map (A B : Type) (f : A -> B) (key : B -> Z) (x : A)
      (l : list A) :
  insert_by key (f x) (map f l) = map f (insert_by (fun a => key (f a)) x l).
Proof.
  induction l as [| y rest IH]; [reflexivity |].
  simpl. destruct (key (f x) <=? key (f y)); [reflexivity |].
  simpl. rewrite IH. reflexivity.
Qed.

Lemma sorted_map (A B : Type) (f : A -> B) (key : B -> Z) (l : list A) :
  sorted key (map f l) = map f (sorted (fun a => key (f a)) l).
Proof.
  induction l as [| x rest IH]; [reflexivity |].
  change (sorted key (map f (x :: rest)))
    with (insert_by key (f x) (sorted key (map f rest))).
  rewrite IH. apply insert_by_map.
Qed.

Lemma for_loop_map (A B S : Type) (f : A -> B) (body : B -> S -> S)
      (l : list A) (s : S) :
  for_loop body (map f l) s = for_loop (fun a => body (f a)) l s.
Proof.
  revert s; induction l as [| x rest IH]; intros s; simpl;
    [reflexivity | apply IH].
Qed.

(** The handlers of an [on] statement in comparable mode.  They are rendered
    one after the other in ascending order of the lines on which their blocks
    are recorded, handlers recorded on the same line in the order in which
    the dict stores them: the list [ordered] is a rearrangement of the
    stored handlers, its lines ascend, and it keeps the stored order of the
    handlers of each line.  Hence, when the lines are pairwise distinct,
    every storage order of the handlers gives the same rendering. *)
Theorem on_handlers_storage_order
        (loc : Loc) (handlers : list (string * RawBlock)) (s : Decompiler) :
  comparable cfg = true ->
  exists ordered : list (string * RawBlock),
    Permutation handlers ordered
    /\ ascending_lines ordered
    /\ (forall line,
           handlers_on_line line ordered = handlers_on_line line handlers)
    /\ print_atl_node (RawOn loc handlers) s
       = for_loop print_handler ordered (advance_to_line (snd loc) s)
    /\ (NoDup (map handler_line handlers) ->
        forall handlers',
          Permutation handlers handlers' ->
          print_atl_node (RawOn loc handlers') s
          = for_loop print_handler ordered (advance_to_line (snd loc) s)).
Proof.
  intros Hc.
  assert (Hrender : forall hs,
             print_atl_node (RawOn loc hs) s
             = for_loop print_handler (sorted handler_line hs)
                        (advance_to_line (snd loc) s)).
  { intros hs. cbn [print_atl_node]. rewrite Hc.
    rewrite sorted_map, for_loop_map. reflexivity. }
  exists (sorted handler_line handlers).
  split; [apply sorted_rearranges |].
  split; [apply sorted_ascending |].
  split; [intros line; apply sorted_filter |].
  split; [apply Hrender |].
  intros Hnodup handlers' Hperm. rewrite Hrender.
  rewrite <- (sorted_Permutation handler_line Hperm Hnodup). reflexivity.
Qed.

(** ** The output stream is only appended to *)

Lemma extends_refl (s : Decompiler) : extends s s.
Proof. exists EmptyString. rewrite append_nil_r. reflexivity. Qed.

Lemma extends_trans (s1 s2 s3 : Decompiler) :
  extends s1 s2 -> extends s2 s3 -> extends s1 s3.
Proof.
  intros [a Ha] [b Hb]. exists (a ++ b).
  rewrite Hb, Ha, append_assoc. reflexivity.
Qed.

Lemma extends_same (s s' : Decompiler) :
  out_file s' = out_file s -> extends s s'.
Proof. intros H. exists EmptyString. rewrite append_nil_r. exact H. Qed.

Lemma extends_write (text : string) (s : Decompiler) : extends s (write text s).
Proof. exists text. reflexivity. Qed.

Lemma extends_indent (s : Decompiler) : extends s (indent s).
Proof.
  unfold indent. destruct (skip_indent_until_write s);
    [apply extends_refl | apply extends_write].
Qed.

Lemma extends_advance_to_line (target : Z) (s : Decompiler) :
  extends s (advance_to_line target s).
Proof.
  unfold advance_to_line.
  destruct (linenumber s <? target); [| apply extends_refl].
  destruct (comparable cfg).
  - apply extends_same. reflexivity.
  - eapply extends_trans; [apply extends_write | apply extends_same].
    reflexivity.
Qed.

Lemma extends_print_unknown (tag : string) (s : Decompiler) :
  extends s (print_unknown tag s).
Proof.
  unfold print_unknown.
  eapply extends_trans; [apply extends_indent | apply extends_write].
Qed.

(** Chains of calls that write or set a field: peel the outermost call. *)
Ltac extends_chain :=
  repeat first
    [ apply extends_refl
    | match goal with
      | |- extends _ (write _ ?x) =>
          apply extends_trans with x; [| apply extends_write]
      | |- extends _ (indent ?x) =>
          apply extends_trans with x; [| apply extends_indent]
      | |- extends _ (advance_to_line _ ?x) =>
          apply extends_trans with x; [| apply extends_advance_to_line]
      | |- extends _ (print_unknown _ ?x) =>
          apply extends_trans with x; [| apply extends_print_unknown]
      | |- extends _ (add_indent_level _ ?x) =>
          apply extends_trans with x; [| apply extends_same; reflexivity]
      | |- extends _ (set_paired_with _ ?x) =>
          apply extends_trans with x; [| apply extends_same; reflexivity]
      | |- extends _ (set_say_inside_menu _ ?x) =>
          apply extends_trans with x; [| apply extends_same; reflexivity]
      | |- extends _ (set_skip_indent_until_write _ ?x) =>
          apply extends_trans with x; [| apply extends_same; reflexivity]
      | |- extends _ (set_linenumber _ ?x) =>
          apply extends_trans with x; [| apply extends_same; reflexivity]
      | |- extends _ (if ?b then _ else _) => destruct b
      | |- extends _ (match ?o with Some _ => _ | None => _ end) =>
          destruct o
      | |- extends _ (match ?l with nil => _ | cons _ _ => _ end) =>
          destruct l
      | |- extends _ (match ?str with
                      | EmptyString => _
                      | String _ _ => _
                      end) => destruct str
      end ].

Lemma extends_for_loop (A : Type) (body : A -> Decompiler -> Decompiler)
      (l : list A) :
  Forall (fun x => forall s, extends s (body x s)) l ->
  forall s, extends s (for_loop body l s).
Proof.
  induction 1 as [| x rest Hx _ IH]; intros s; simpl.
  - apply extends_refl.
  - eapply extends_trans; [apply Hx | apply IH].
Qed.

Lemma extends_write_lines (lines : list string) (s : Decompiler) :
  extends s (for_loop (fun line s => write line (indent s)) lines s).
Proof.
  apply extends_for_loop. apply Forall_forall. intros line _ s'.
  extends_chain.
Qed.

Lemma extends_print_atl_rawmulti (ast : RawMultipurpose) (s : Decompiler) :
  extends s (print_atl_rawmulti ast s).
Proof. unfold print_atl_rawmulti. extends_chain. Qed.

Lemma extends_print_atl_both :
  (forall a : AtlNode, forall s, extends s (print_atl_node a s))
  /\ (forall b : RawBlock, forall s, extends s (print_atl b s)).
Proof.
  assert (Hblock : forall loc statements,
             list_all AtlNode
                      (fun a => forall s, extends s (print_atl_node a s))
                      statements ->
             forall s, extends s (print_atl (mkRawBlock loc statements) s)).
  { intros loc statements IH s. apply list_all_Forall in IH. simpl.
    destruct statements as [| a rest].
    - extends_chain.
    - apply extends_trans
        with (for_loop print_atl_node (a :: rest)
                       (add_indent_level 1 (advance_to_line (snd loc) s)));
        [| apply extends_same; reflexivity].
      eapply extends_trans; [| apply extends_for_loop; exact IH].
      extends_chain. }
  assert (Hnode : forall a : AtlNode,
             forall s, extends s (print_atl_node a s)).
  { apply (@AtlNode_block_ind
             (fun a => forall s, extends s (print_atl_node a s))
             (fun b => forall s, extends s (print_atl b s)));
      try exact Hblock; try (intros; simpl; extends_chain; fail).
    - intros loc m s; simpl.
      eapply extends_trans;
        [apply extends_advance_to_line | apply extends_print_atl_rawmulti].
    - intros b IH s; simpl.
      eapply extends_trans; [| apply IH]. extends_chain.
    - intros loc children IH s; simpl.
      eapply extends_trans; [apply extends_advance_to_line |].
      apply extends_for_loop. apply list_all_Forall in IH.
      eapply Forall_impl; [| exact IH]. intros b Hb s'; simpl in *.
      eapply extends_trans; [| apply Hb]. extends_chain.
    - intros loc choices IH s; simpl.
      eapply extends_trans; [apply extends_advance_to_line |].
      apply extends_for_loop. apply list_all_snd_Forall in IH.
      eapply Forall_impl; [| exact IH]. intros b Hb s'; simpl in *.
      eapply extends_trans; [| apply Hb]. extends_chain.
    - intros loc handlers IH s; simpl.
      eapply extends_trans; [apply extends_advance_to_line |].
      apply extends_for_loop. apply list_all_snd_Forall in IH.
      assert (Hitems :
                Forall (fun event : string * (Z * (Decompiler -> Decompiler)) =>
                          forall s, extends s (snd (snd event) s))
                       (map (fun item : string * RawBlock =>
                               (fst item, (snd (block_loc (snd item)),
                                           print_atl (snd item)))) handlers)).
      { apply Forall_map. eapply Forall_impl; [| exact IH].
        intros item Hitem; simpl. exact Hitem. }
      destruct (comparable cfg);
        [apply (Forall_sorted (fun i => fst (snd i))) in Hitems |];
        (eapply Forall_impl; [| exact Hitems]); intros ev Hev s'; simpl;
        (eapply extends_trans; [| apply Hev]); extends_chain.
    - intros loc blocks IH s; simpl.
      eapply extends_trans; [apply extends_advance_to_line |].
      apply extends_for_loop. apply list_all_Forall in IH.
      eapply Forall_impl; [| exact IH]. intros b Hb s'; simpl in *.
      eapply extends_trans; [| apply Hb]. extends_chain. }
  split; [exact Hnode |].
  intros [loc statements]. apply Hblock.
  induction statements; constructor; auto.
Qed.

Lemma extends_print_atl (b : RawBlock) (s : Decompiler) :
  extends s (print_atl b s).
Proof. apply extends_print_atl_both. Qed.

Lemma extends_print_atl_of (atl : option RawBlock) (s : Decompiler) :
  extends s (print_atl_of atl s).
Proof.
  destruct atl as [b |]; simpl; [| apply extends_refl].
  eapply extends_trans; [apply extends_write | apply extends_print_atl].
Qed.
Lemma for_each_rel (A S : Type) (R : S -> S -> Prop)
      (body : A -> S -> result S) (l : list A) :
  (forall s, R s s) ->
  (forall s1 s2 s3, R s1 s2 -> R s2 s3 -> R s1 s3) ->
  Forall (fun x => forall s s', body x s = Ok s' -> R s s') l ->
  forall s s', for_each body l s = Ok s' -> R s s'.
Proof.
  intros Hrefl Htrans.
  induction 1 as [| x rest Hx _ IH]; intros s s' H; simpl in H.
  - inversion H; subst. apply Hrefl.
  - apply bind_Ok in H as (s1 & H1 & H2).
    eapply Htrans; [eapply Hx; exact H1 | apply IH; exact H2].
Qed.

Lemma for_each_indexed_rel (A S : Type) (R : S -> S -> Prop)
      (body : nat -> A -> S -> result S) (l : list A) :
  (forall s, R s s) ->
  (forall s1 s2 s3, R s1 s2 -> R s2 s3 -> R s1 s3) ->
  Forall (fun x => forall i s s', body i x s = Ok s' -> R s s') l ->
  forall i s s', for_each_indexed body l i s = Ok s' -> R s s'.
Proof.
  intros Hrefl Htrans.
  induction 1 as [| x rest Hx _ IH]; intros i s s' H; simpl in H.
  - inversion H; subst. apply Hrefl.
  - apply bind_Ok in H as (s1 & H1 & H2).
    eapply Htrans; [eapply Hx; exact H1 | eapply IH; exact H2].
Qed.

Lemma keeps_prefix_Ok (s0 s : Decompiler) :
  extends s s0 -> keeps_prefix (Ok s0) s.
Proof. intros H s' E; inversion E; subst; assumption. Qed.

Lemma keeps_prefix_Raise (e : PyError) (s : Decompiler) :
  keeps_prefix (Raise e) s.
Proof. intros s' E; discriminate. Qed.

Lemma keeps_prefix_from (r : result Decompiler) (s1 s2 : Decompiler) :
  extends s2 s1 -> keeps_prefix r s1 -> keeps_prefix r s2.
Proof.
  unfold keeps_prefix; intros H K s' E.
  eapply extends_trans; [exact H | apply K; exact E].
Qed.

Lemma extends_print_imspec (imspec : ImSpec) (s : Decompiler)
      (r : Decompiler * bool) :
  print_imspec imspec s = Ok r -> extends s (fst r).
Proof.
  unfold print_imspec. intros H.
  destruct (im_at_list imspec) as [| a rest].
  - inversion H; subst; simpl. extends_chain.
  - destruct (last_char _); [| discriminate].
    inversion H; subst; simpl. extends_chain.
Qed.

Lemma extends_write_paired_with (b : bool) (s : Decompiler) :
  extends s (write_paired_with b s).
Proof. unfold write_paired_with. extends_chain. Qed.

Lemma print_show_prefix (imspec : ImSpec) (atl : option RawBlock)
      (s : Decompiler) :
  keeps_prefix (print_show imspec atl s) s.
Proof.
  unfold print_show. intros s' H.
  destruct (print_imspec imspec _) as [r |] eqn:E; simpl in H; [| discriminate].
  apply extends_print_imspec in E. inversion H; subst.
  eapply extends_trans; [| apply extends_print_atl_of].
  eapply extends_trans; [| apply extends_write_paired_with].
  eapply extends_trans; [| exact E]. extends_chain.
Qed.

Lemma print_scene_prefix (imspec : option ImSpec) (layer : string)
      (atl : option RawBlock) (s : Decompiler) :
  keeps_prefix (print_scene imspec layer atl s) s.
Proof.
  unfold print_scene. intros s' H.
  destruct imspec as [imspec |]; simpl in H.
  - destruct (print_imspec imspec _) as [r |] eqn:E; simpl in H;
      [| discriminate].
    apply extends_print_imspec in E. inversion H; subst; simpl.
    eapply extends_trans; [| apply extends_print_atl_of].
    eapply extends_trans; [| apply extends_write_paired_with].
    eapply extends_trans; [| exact E]. extends_chain.
  - inversion H; subst.
    eapply extends_trans; [| apply extends_print_atl_of].
    eapply extends_trans; [| apply extends_write_paired_with].
    extends_chain.
Qed.

Lemma print_hide_prefix (imspec : ImSpec) (s : Decompiler) :
  keeps_prefix (print_hide imspec s) s.
Proof.
  unfold print_hide. intros s' H.
  destruct (print_imspec imspec _) as [r |] eqn:E; simpl in H; [| discriminate].
  apply extends_print_imspec in E. inversion H; subst.
  eapply extends_trans; [| exact E]. extends_chain.
Qed.

Lemma print_with_prefix (block : list Node) (index : nat) (ast : WithNode)
      (s : Decompiler) :
  keeps_prefix (print_with block index ast s) s.
Proof.
  unfold print_with. intros s' H.
  destruct (paired ast).
  - destruct (nth_error block (index + 2)); [| discriminate].
    destruct (negb _); [discriminate |]. inversion H; subst.
    extends_chain.
  - destruct (pw_truthy _); inversion H; subst; clear H;
      [destruct (paired_with s) |]; extends_chain.
Qed.

Lemma print_pass_prefix (block : list Node) (index : nat) (s : Decompiler) :
  keeps_prefix (print_pass block index s) s.
Proof.
  unfold print_pass. intros s' H.
  destruct (after_call block index) as [c |]; simpl in H; [| discriminate].
  destruct c; simpl in H; inversion H; subst; extends_chain.
Qed.

Lemma print_python_prefix (source : string) (hide early : bool)
      (s : Decompiler) :
  keeps_prefix (print_python source hide early s) s.
Proof.
  unfold print_python. intros s' H.
  destruct source as [| c code]; [discriminate |].
  destruct (Ascii.eqb c _); inversion H; subst; clear H.
  - apply extends_trans
      with (for_loop (fun line s => write line (indent s))
                     (split_logical_lines code)
                     (add_indent_level 1
                        (write ":"
                           (if hide
                            then write " hide"
                                   (if early
                                    then write " early"
                                           (write "python" (indent s))
                                    else write "python" (indent s))
                            else if early
                                 then write " early"
                                        (write "python" (indent s))
                                 else write "python" (indent s)))));
      [| apply extends_same; reflexivity].
    eapply extends_trans; [| apply extends_write_lines].
    extends_chain.
  - extends_chain.
Qed.

Lemma print_say_prefix (block : list Node) (index : nat) (ast : SayNode)
      (inmenu : bool) (s : Decompiler) :
  keeps_prefix (print_say block index ast inmenu s) s.
Proof.
  unfold print_say. intros s' H.
  destruct (say_goes_inside_menu _ _ _ _) as [inside |]; simpl in H;
    [| discriminate].
  destruct inside; inversion H; subst; clear H; extends_chain.
Qed.

Lemma print_translatestring_prefix (block : list Node) (index : nat)
      (line : Z) (language : option string) (old new : string)
      (s : Decompiler) :
  keeps_prefix (print_translatestring block index line language old new s) s.
Proof.
  unfold print_translatestring. intros s' H.
  match type of H with bind ?g _ = _ => destruct g as [grouped |] end;
    simpl in H; [| discriminate].
  inversion H; subst; clear H. extends_chain.
Qed.

Lemma extends_print_style (ast : StyleNode) (s : Decompiler) :
  extends s (print_style ast s).
Proof.
  unfold print_style. destruct (comparable cfg); [extends_chain |].
  match goal with
  | |- extends _ (add_indent_level _ ?x) =>
      apply extends_trans with x; [| apply extends_same; reflexivity]
  end.
  eapply extends_trans;
    [| apply extends_for_loop; apply Forall_forall; intros i _ s';
       extends_chain].
  extends_chain.
Qed.

Lemma extends_print_screen (screen : ScreenObject) (s : Decompiler) :
  extends s (print_screen screen s).
Proof.
  destruct screen; simpl; try apply extends_print_unknown.
  - eexists; reflexivity.
  - eexists; reflexivity.
Qed.

Lemma extends_advance_to_node (ast : Node) (s : Decompiler) :
  extends s (advance_to_node ast s).
Proof.
  unfold advance_to_node. destruct (is_TranslateString ast);
    [apply extends_refl |].
  destruct (node_linenumber ast); [apply extends_advance_to_line |].
  destruct ast; try apply extends_refl.
  destruct loc; [apply extends_advance_to_line | apply extends_refl].
Qed.

Lemma print_nodes_with_prefix (ast : list Node) :
  Forall node_keeps_prefix ast ->
  forall extra_indent s,
    keeps_prefix (print_nodes_with print_node ast extra_indent s) s.
Proof.
  intros Hast extra_indent s s' H. unfold print_nodes_with in H.
  apply bind_Ok in H as (s1 & H1 & H2). inversion H2; subst; clear H2.
  apply (for_each_indexed_rel extends) in H1.
  - eapply extends_trans; [| apply extends_same; reflexivity].
    eapply extends_trans; [| exact H1]. apply extends_same. reflexivity.
  - apply extends_refl.
  - apply extends_trans.
  - eapply Forall_impl; [| exact Hast].
    intros node Hnode i s2 s3 E. exact (Hnode ast i s2 s3 E).
Qed.

Lemma print_nodes_with_prefix_from (ast : list Node) (s0 : Decompiler) :
  Forall node_keeps_prefix ast ->
  forall extra_indent s,
    extends s0 s ->
    keeps_prefix (print_nodes_with print_node ast extra_indent s) s0.
Proof.
  intros Hast extra_indent s E.
  eapply keeps_prefix_from; [exact E |].
  apply print_nodes_with_prefix; exact Hast.
Qed.

(** A leaf renderer that cannot raise. *)
Ltac prefix_leaf :=
  apply keeps_prefix_Ok;
  unfold print_image, print_transform, print_showlayer, print_jump,
    print_call, print_return, print_define, print_userstatement;
  repeat first
    [ apply extends_refl
    | apply extends_advance_to_node
    | match goal with
      | |- extends _ (print_atl_of _ ?x) =>
          apply extends_trans with x; [| apply extends_print_atl_of]
      | |- extends _ (print_style _ ?x) =>
          apply extends_trans with x; [| apply extends_print_style]
      | |- extends _ (print_screen _ ?x) =>
          apply extends_trans with x; [| apply extends_print_screen]
      | |- extends _ (write _ ?x) =>
          apply extends_trans with x; [| apply extends_write]
      | |- extends _ (indent ?x) =>
          apply extends_trans with x; [| apply extends_indent]
      | |- extends _ (print_unknown _ ?x) =>
          apply extends_trans with x; [| apply extends_print_unknown]
      | |- extends _ (set_skip_indent_until_write _ ?x) =>
          apply extends_trans with x; [| apply extends_same; reflexivity]
      | |- extends _ (if ?b then _ else _) => destruct b
      | |- extends _ (match ?o with Some _ => _ | None => _ end) =>
          destruct o
      | |- extends _ (match ?l with nil => _ | cons _ _ => _ end) =>
          destruct l
      end ].

(** A leaf renderer that can raise, from the lemma about it. *)
Ltac prefix_leaf_from lemma :=
  eapply keeps_prefix_from; [apply extends_advance_to_node | apply lemma].

(** The state a nested block starts from. *)
Ltac prefix_start :=
  repeat first
    [ apply extends_refl
    | apply extends_advance_to_node
    | match goal with
      | |- extends _ (write _ ?x) =>
          apply extends_trans with x; [| apply extends_write]
      | |- extends _ (indent ?x) =>
          apply extends_trans with x; [| apply extends_indent]
      | |- extends _ (add_indent_level _ ?x) =>
          apply extends_trans with x; [| apply extends_same; reflexivity]
      | |- extends _ (set_skip_indent_until_write _ ?x) =>
          apply extends_trans with x; [| apply extends_same; reflexivity]
      | |- extends _ (set_say_inside_menu _ ?x) =>
          apply extends_trans with x; [| apply extends_same; reflexivity]
      | |- extends _ (if ?b then _ else _) => destruct b
      | |- extends _ (match ?o with Some _ => _ | None => _ end) =>
          destruct o
      end ].

Lemma print_node_prefix (ast : Node) : node_keeps_prefix ast.
Proof.
  apply (@Node_ind node_keeps_prefix); unfold node_keeps_prefix.
  - intros; simpl; prefix_leaf.
  - intros; simpl; prefix_leaf.
  - intros; simpl; prefix_leaf_from print_show_prefix.
  - intros; simpl; prefix_leaf.
  - intros; simpl; prefix_leaf_from print_scene_prefix.
  - intros; simpl; prefix_leaf_from print_hide_prefix.
  - intros; simpl; prefix_leaf_from print_with_prefix.
  - (* Label *)
    intros ln name params body IH block index s; simpl.
    apply list_all_Forall in IH.
    destruct (after_call block index) as [c |]; simpl;
      [| apply keeps_prefix_Raise].
    destruct c; [apply keeps_prefix_Ok; prefix_start |].
    apply print_nodes_with_prefix_from; [exact IH | prefix_start].
  - intros; simpl; prefix_leaf.
  - intros; simpl; prefix_leaf.
  - intros; simpl; prefix_leaf.
  - (* If *)
    intros ln entries IH block index s s' H; simpl in H.
    apply list_all_blocks_Forall in IH.
    apply bind_Ok in H as (r & H1 & H2). inversion H2; subst; clear H2.
    apply (for_each_indexed_rel
             (fun st st' : bool * Decompiler => extends (snd st) (snd st')))
      in H1.
    + simpl in H1. eapply extends_trans; [| exact H1].
      apply extends_advance_to_node.
    + intros st. apply extends_refl.
    + intros st1 st2 st3. apply extends_trans.
    + eapply Forall_impl; [| exact IH].
      intros entry Hentry i st st' E.
      apply bind_Ok in E as (s1 & E1 & E2). inversion E2; subst; clear E2.
      simpl. eapply print_nodes_with_prefix_from; [exact Hentry | | exact E1].
      destruct (_ && _); simpl; prefix_start.
  - (* While *)
    intros ln condition body IH block index s; simpl.
    apply list_all_Forall in IH.
    apply print_nodes_with_prefix_from; [exact IH | prefix_start].
  - intros; simpl; prefix_leaf_from print_pass_prefix.
  - (* Init *)
    intros ln priority body IH block index s; simpl.
    apply list_all_Forall in IH.
    destruct (is_implicit_init _ _ _) as [implicit |]; simpl;
      [| apply keeps_prefix_Raise].
    destruct implicit;
      [apply print_nodes_with_prefix_from; [exact IH | prefix_start] |].
    destruct (is_translatestring_init _ _);
      [apply print_nodes_with_prefix_from; [exact IH | prefix_start] |].
    destruct (init_on_one_line _ _) as [one_line |]; simpl;
      [| apply keeps_prefix_Raise].
    destruct one_line;
      (apply print_nodes_with_prefix_from; [exact IH | prefix_start]).
  - (* Menu *)
    intros ln menu_with set items IH block index s s' H; simpl in H.
    apply list_all_items_Forall in IH.
    apply bind_Ok in H as (s1 & H1 & H2).
    apply bind_Ok in H2 as (s2 & H2 & H3). inversion H3; subst; clear H3.
    assert (E1 : extends s s1).
    { destruct (say_inside_menu _) as [say |].
      - apply bind_Ok in H1 as (s3 & H1 & H3). inversion H3; subst; clear H3.
        apply print_say_prefix in H1.
        eapply extends_trans; [| apply extends_same; reflexivity].
        eapply extends_trans; [| exact H1]. prefix_start.
      - inversion H1; subst; clear H1. prefix_start. }
    eapply extends_trans; [| apply extends_same; reflexivity].
    eapply extends_trans; [exact E1 |].
    apply (for_each_rel extends) in H2.
    + eapply extends_trans; [| exact H2]. prefix_start.
    + apply extends_refl.
    + apply extends_trans.
    + eapply Forall_impl; [| exact IH].
      intros [[label condition] [body |]] Hitem s3 s4 E; simpl in *.
      * eapply print_nodes_with_prefix_from; [exact Hitem | | exact E].
        prefix_start.
      * inversion E; subst. prefix_start.
  - intros; simpl; prefix_leaf_from print_python_prefix.
  - intros; simpl; prefix_leaf_from print_python_prefix.
  - intros; simpl; prefix_leaf.
  - intros; simpl; prefix_leaf_from print_say_prefix.
  - intros; simpl; prefix_leaf.
  - intros; simpl; prefix_leaf.
  - (* Translate *)
    intros ln language identifier body IH block index s; simpl.
    apply list_all_Forall in IH.
    apply print_nodes_with_prefix_from; [exact IH | prefix_start].
  - intros; simpl; apply keeps_prefix_Ok; apply extends_advance_to_node.
  - intros; simpl; prefix_leaf_from print_translatestring_prefix.
  - (* TranslateBlock *)
    intros ln language body IH block index s; simpl.
    apply list_all_Forall in IH.
    apply print_nodes_with_prefix_from; [exact IH | prefix_start].
  - intros; simpl; prefix_leaf.
  - intros; simpl; prefix_leaf.
Qed.
(** Rendering never takes back or rewrites what it has written: a motion
    block, a block of statements and a single statement only append to the
    text of the state they start from (the text a screen decompiler writes
    is appended as well). *)
Theorem output_is_append_only :
  (forall (b : RawBlock) (s : Decompiler), extends s (print_atl b s))
  /\ (forall (ast : list Node) (extra_indent : Z) (s s' : Decompiler),
         print_nodes ast extra_indent s = Ok s' -> extends s s')
  /\ (forall (ast : Node) (block : list Node) (index : nat)
             (s s' : Decompiler),
         print_node ast block index s = Ok s' -> extends s s').
Proof.
  split; [exact extends_print_atl | split].
  - intros ast extra_indent s s' H.
    apply (@print_nodes_with_prefix ast) with (extra_indent := extra_indent);
      [| exact H].
    apply Forall_forall. intros node _. apply print_node_prefix.
  - intros ast block index s s' H. exact (print_node_prefix ast _ _ _ H).
Qed.

(** What [dump] produces when it returns: the banner unless the mode is
    comparable, then the rendering of the statements, then one newline, all
    appended to the stream. *)
Theorem dump_output (ast : list Node) (indent_level : Z) (s s' : Decompiler) :
  dump ast indent_level s = Ok s' ->
  exists body : string,
    out_file s'
    = out_file s ++ (if comparable cfg then EmptyString else banner)
               ++ body ++ nl.
Proof.
  unfold dump, base_dump. intros H.
  apply bind_Ok in H as (s1 & H1 & H2). inversion H2; subst; clear H2.
  assert (Hbody : extends
                    (set_skip_indent_until_write (comparable cfg)
                       (set_indent_level indent_level
                          (if negb (comparable cfg) then write banner s
                           else s))) s1).
  { apply (@print_nodes_with_prefix ast) with (extra_indent := 0);
      [| exact H1].
    apply Forall_forall. intros node _. apply print_node_prefix. }
  destruct Hbody as [body Hbody]. exists body.
  rewrite out_file_write, Hbody.
  destruct (comparable cfg); simpl; rewrite ?append_assoc; reflexivity.
Qed.

(** ** The pending registers are resolved inside their block *)

Lemma registers_back_refl (s : Decompiler) : registers_back s s.
Proof. split; auto. Qed.

Lemma registers_back_trans (s1 s2 s3 : Decompiler) :
  registers_back s1 s2 -> registers_back s2 s3 -> registers_back s1 s3.
Proof. intros [H1 H2] [H3 H4]. split; auto. Qed.

Lemma frame_registers_back (k : Z) (s s' : Decompiler) :
  frame k s s' -> registers_back s s'.
Proof. intros (_ & Hp & Hs). split; congruence. Qed.

Lemma registers_back_same (s s' : Decompiler) :
  paired_with s' = paired_with s -> say_inside_menu s' = say_inside_menu s ->
  registers_back s s'.
Proof. intros Hp Hs. split; congruence. Qed.

(** The renderers that change no register. *)
Lemma frame_write_lines (lines : list string) (s : Decompiler) :
  frame 0 s (for_loop (fun line s => write line (indent s)) lines s).
Proof.
  apply frame_for_loop. apply Forall_forall. intros line _ s'. frame_chain.
Qed.

Lemma frame_print_imspec (imspec : ImSpec) (s : Decompiler)
      (r : Decompiler * bool) :
  print_imspec imspec s = Ok r -> frame 0 s (fst r).
Proof.
  unfold print_imspec. intros H.
  destruct (im_at_list imspec) as [| a rest].
  - inversion H; subst; simpl. frame_chain.
  - destruct (last_char _); [| discriminate].
    inversion H; subst; simpl. frame_chain.
Qed.

Lemma frame_advance_to_node (ast : Node) (s : Decompiler) :
  frame 0 s (advance_to_node ast s).
Proof.
  unfold advance_to_node. destruct (is_TranslateString ast);
    [apply frame_refl |].
  destruct (node_linenumber ast); [apply frame_advance_to_line |].
  destruct ast; try apply frame_refl.
  destruct loc; [apply frame_advance_to_line | apply frame_refl].
Qed.

Lemma frame_print_style (ast : StyleNode) (s : Decompiler) :
  frame 0 s (print_style ast s).
Proof.
  unfold print_style. destruct (comparable cfg); [frame_chain |].
  replace 0 with (0 + 1 + 0 + -1) by lia.
  eapply frame_trans; [| apply frame_add_indent_level].
  eapply frame_trans;
    [| apply frame_for_loop; apply Forall_forall; intros i _ s';
       frame_chain].
  eapply frame_trans; [| apply frame_add_indent_level]. frame_chain.
Qed.

Lemma frame_print_screen (screen : ScreenObject) (s : Decompiler) :
  frame 0 s (print_screen screen s).
Proof.
  destruct screen; simpl; try apply frame_print_unknown;
    unfold frame; simpl; repeat split; lia.
Qed.
(** Chains of calls that leave the registers alone: peel the outermost
    call. *)
Ltac registers_chain :=
  repeat first
    [ apply registers_back_refl
    | match goal with
      | |- registers_back _ (write _ ?x) =>
          apply registers_back_trans with x;
          [| apply registers_back_same; reflexivity]
      | |- registers_back _ (add_indent_level _ ?x) =>
          apply registers_back_trans with x;
          [| apply registers_back_same; reflexivity]
      | |- registers_back _ (set_skip_indent_until_write _ ?x) =>
          apply registers_back_trans with x;
          [| apply registers_back_same; reflexivity]
      | |- registers_back _ (set_linenumber _ ?x) =>
          apply registers_back_trans with x;
          [| apply registers_back_same; reflexivity]
      | |- registers_back _ (indent ?x) =>
          apply registers_back_trans with x;
          [| apply (frame_registers_back (frame_indent x))]
      | |- registers_back _ (advance_to_line ?l ?x) =>
          apply registers_back_trans with x;
          [| apply (frame_registers_back (frame_advance_to_line l x))]
      | |- registers_back _ (advance_to_node ?n ?x) =>
          apply registers_back_trans with x;
          [| apply (frame_registers_back (frame_advance_to_node n x))]
      | |- registers_back _ (print_unknown ?t ?x) =>
          apply registers_back_trans with x;
          [| apply (frame_registers_back (frame_print_unknown t x))]
      | |- registers_back _ (print_atl_of ?a ?x) =>
          apply registers_back_trans with x;
          [| apply (frame_registers_back (frame_print_atl_of a x))]
      | |- registers_back _ (print_style ?a ?x) =>
          apply registers_back_trans with x;
          [| apply (frame_registers_back (frame_print_style a x))]
      | |- registers_back _ (print_screen ?a ?x) =>
          apply registers_back_trans with x;
          [| apply (frame_registers_back (frame_print_screen a x))]
      | |- registers_back _ (for_loop (fun line s => write line (indent s))
                                      ?l ?x) =>
          apply registers_back_trans with x;
          [| apply (frame_registers_back (frame_write_lines l x))]
      | |- registers_back _ (if ?b then _ else _) => destruct b
      | |- registers_back _ (match ?o with Some _ => _ | None => _ end) =>
          destruct o
      | |- registers_back _ (match ?l with nil => _ | cons _ _ => _ end) =>
          destruct l
      end ].

Lemma keeps_registers_Ok (s0 s : Decompiler) :
  registers_back s s0 -> keeps_registers (Ok s0) s.
Proof. intros H s' E; inversion E; subst; assumption. Qed.

Lemma keeps_registers_Raise (e : PyError) (s : Decompiler) :
  keeps_registers (Raise e) s.
Proof. intros s' E; discriminate. Qed.

Lemma keeps_registers_from (r : result Decompiler) (s1 s2 : Decompiler) :
  registers_back s2 s1 -> keeps_registers r s1 -> keeps_registers r s2.
Proof.
  unfold keeps_registers; intros H K s' E.
  eapply registers_back_trans; [exact H | apply K; exact E].
Qed.

Lemma registers_back_write_paired_with (b : bool) (s : Decompiler) :
  registers_back s (write_paired_with b s).
Proof.
  unfold write_paired_with. destruct (pw_truthy (paired_with s)) eqn:E;
    [| apply registers_back_refl].
  split.
  - intros _ H. rewrite H in E. discriminate.
  - destruct b; simpl; auto.
Qed.

Lemma print_show_registers (imspec : ImSpec) (atl : option RawBlock)
      (s : Decompiler) :
  keeps_registers (print_show imspec atl s) s.
Proof.
  unfold print_show. intros s' H.
  destruct (print_imspec imspec _) as [r |] eqn:E; simpl in H; [| discriminate].
  apply frame_print_imspec, frame_registers_back in E. inversion H; subst.
  registers_chain.
  eapply registers_back_trans; [| apply registers_back_write_paired_with].
  eapply registers_back_trans; [| exact E]. registers_chain.
Qed.

Lemma print_scene_registers (imspec : option ImSpec) (layer : string)
      (atl : option RawBlock) (s : Decompiler) :
  keeps_registers (print_scene imspec layer atl s) s.
Proof.
  unfold print_scene. intros s' H.
  destruct imspec as [imspec |]; simpl in H.
  - destruct (print_imspec imspec _) as [r |] eqn:E; simpl in H;
      [| discriminate].
    apply frame_print_imspec, frame_registers_back in E.
    inversion H; subst; simpl. registers_chain.
    eapply registers_back_trans; [| apply registers_back_write_paired_with].
    eapply registers_back_trans; [| exact E]. registers_chain.
  - inversion H; subst. registers_chain.
    eapply registers_back_trans; [| apply registers_back_write_paired_with].
    simpl. registers_chain.
Qed.

Lemma print_hide_registers (imspec : ImSpec) (s : Decompiler) :
  keeps_registers (print_hide imspec s) s.
Proof.
  unfold print_hide. intros s' H.
  destruct (print_imspec imspec _) as [r |] eqn:E; simpl in H; [| discriminate].
  apply frame_print_imspec, frame_registers_back in E. inversion H; subst.
  eapply registers_back_trans; [| exact E]. registers_chain.
Qed.

Lemma print_pass_registers (block : list Node) (index : nat)
      (s : Decompiler) :
  keeps_registers (print_pass block index s) s.
Proof.
  unfold print_pass. intros s' H.
  destruct (after_call block index) as [c |]; simpl in H; [| discriminate].
  destruct c; simpl in H; inversion H; subst; registers_chain.
Qed.

Lemma print_python_registers (source : string) (hide early : bool)
      (s : Decompiler) :
  keeps_registers (print_python source hide early s) s.
Proof.
  unfold print_python. intros s' H.
  destruct source as [| c code]; [discriminate |].
  destruct (Ascii.eqb c _); inversion H; subst; clear H; registers_chain.
Qed.

Lemma print_translatestring_registers (block : list Node) (index : nat)
      (line : Z) (language : option string) (old new : string)
      (s : Decompiler) :
  keeps_registers
    (print_translatestring block index line language old new s) s.
Proof.
  unfold print_translatestring. intros s' H.
  match type of H with bind ?g _ = _ => destruct g as [grouped |] end;
    simpl in H; [| discriminate].
  inversion H; subst; clear H. registers_chain.
Qed.

(** A statement kept for the menu has a menu next to it. *)
Lemma say_goes_inside_menu_next (block : list Node) (index : nat)
      (ast : SayNode) (inmenu : bool) :
  say_goes_inside_menu block index ast inmenu = Ok true ->
  exists m, nth_error block (index + 1) = Some m /\ is_Menu m = true.
Proof.
  unfold say_goes_inside_menu.
  destruct (_ && _); [| discriminate].
  destruct (nth_error block (index + 1)) as [next |]; [| discriminate].
  destruct next; try discriminate.
  intros _. eexists. split; reflexivity.
Qed.

(** Inside a menu the statement is always rendered. *)
Lemma print_say_inmenu (block : list Node) (index : nat) (ast : SayNode)
      (s : Decompiler) :
  print_say block index ast true s = Ok (write (say_text ast true) (indent s)).
Proof.
  apply print_say_in_place. unfold say_goes_inside_menu.
  rewrite andb_false_r. reflexivity.
Qed.
(** The loop of [print_nodes] from position [i], on the statements [rest]
    that the block [ast] has from that position. *)
Lemma loop_resolves (ast rest : list Node) :
  Forall node_resolves rest ->
  forall i s s',
    (forall k, nth_error rest k = nth_error ast (i + k)) ->
    for_each_indexed (fun i node s => print_node node ast i s) rest i s
    = Ok s' ->
    (paired_with s' <> PW_False ->
     paired_with s <> PW_False /\ Forall (fun n => is_With n = false) rest)
    /\ (say_inside_menu s' <> None ->
        say_inside_menu s <> None
        /\ Forall (fun n => is_Menu n = false) rest).
Proof.
  induction 1 as [| node rest' Hnode _ IH]; intros i s s' Hsuffix H;
    simpl in H.
  - inversion H; subst. split; intros Hp; split; auto.
  - apply bind_Ok in H as (s1 & H1 & H2).
    assert (Hsuffix' : forall k,
               nth_error rest' k = nth_error ast (S i + k)).
    { intros k. specialize (Hsuffix (S k)). simpl in Hsuffix.
      rewrite Hsuffix. f_equal. lia. }
    destruct (IH _ _ _ Hsuffix' H2) as [IHp IHs].
    destruct (Hnode _ _ _ _ H1) as [Hp Hs].
    split.
    + intros Hend. destruct (IHp Hend) as [Hmid Hrest].
      destruct (Hp Hmid) as [[Hstart Hnot] | [w Hw]].
      * split; [exact Hstart | constructor; assumption].
      * exfalso. specialize (Hsuffix' 1%nat).
        replace (S i + 1)%nat with (i + 2)%nat in Hsuffix' by lia.
        rewrite Hw in Hsuffix'. apply nth_error_In in Hsuffix'.
        rewrite Forall_forall in Hrest. apply Hrest in Hsuffix'.
        discriminate.
    + intros Hend. destruct (IHs Hend) as [Hmid Hrest].
      destruct (Hs Hmid) as [[Hstart Hnot] | (m & Hm & Hmenu)].
      * split; [exact Hstart | constructor; assumption].
      * exfalso. specialize (Hsuffix' 0%nat).
        replace (S i + 0)%nat with (i + 1)%nat in Hsuffix' by lia.
        rewrite Hm in Hsuffix'. apply nth_error_In in Hsuffix'.
        rewrite Forall_forall in Hrest. apply Hrest in Hsuffix'.
        congruence.
Qed.

Lemma print_nodes_with_registers (ast : list Node) :
  Forall node_resolves ast ->
  forall extra_indent s,
    keeps_registers (print_nodes_with print_node ast extra_indent s) s.
Proof.
  intros Hast extra_indent s s' H. unfold print_nodes_with in H.
  apply bind_Ok in H as (s1 & H1 & H2). inversion H2; subst; clear H2.
  apply (@loop_resolves ast ast Hast) in H1; [| intros k; reflexivity].
  destruct H1 as [Hp Hs]. split; simpl; intros Hend.
  - apply Hp in Hend. apply Hend.
  - apply Hs in Hend. apply Hend.
Qed.

Lemma print_nodes_with_registers_from (ast : list Node) (s0 : Decompiler) :
  Forall node_resolves ast ->
  forall extra_indent s,
    registers_back s0 s ->
    keeps_registers (print_nodes_with print_node ast extra_indent s) s0.
Proof.
  intros Hast extra_indent s E.
  eapply keeps_registers_from; [exact E |].
  apply print_nodes_with_registers; exact Hast.
Qed.

(** A statement that is neither a transition nor a menu and leaves no
    register pending that was not. *)
Lemma node_resolves_of_back (ast : Node) :
  is_With ast = false -> is_Menu ast = false ->
  (forall block index s, keeps_registers (print_node ast block index s) s) ->
  node_resolves ast.
Proof.
  intros Hw Hm Hback block index s s' H.
  destruct (Hback _ _ _ _ H) as [Hp Hs].
  split; intros Hend; left; split; auto.
Qed.
(** A leaf renderer that cannot raise. *)
Ltac registers_leaf :=
  apply node_resolves_of_back; [reflexivity | reflexivity |];
  intros; simpl; apply keeps_registers_Ok;
  unfold print_image, print_transform, print_showlayer, print_jump,
    print_call, print_return, print_define, print_userstatement;
  registers_chain.

(** A leaf renderer that can raise, from the lemma about it. *)
Ltac registers_leaf_from lemma :=
  apply node_resolves_of_back; [reflexivity | reflexivity |];
  intros; simpl;
  eapply keeps_registers_from;
  [eapply frame_registers_back; apply frame_advance_to_node | apply lemma].

Lemma print_node_resolves (ast : Node) : node_resolves ast.
Proof.
  apply (@Node_ind node_resolves).
  - intros; registers_leaf.
  - intros; registers_leaf.
  - intros; registers_leaf_from print_show_registers.
  - intros; registers_leaf.
  - intros; registers_leaf_from print_scene_registers.
  - intros; registers_leaf_from print_hide_registers.
  - (* With *)
    intros w block index s s' H. simpl in H. unfold print_with in H.
    assert (Hs0 : registers_back s (advance_to_node (With w) s))
      by (eapply frame_registers_back; apply frame_advance_to_node).
    assert (Hsay : say_inside_menu (advance_to_node (With w) s)
                   = say_inside_menu s) by apply frame_advance_to_node.
    destruct (paired w) as [p |].
    + destruct (nth_error block (index + 2)) as [sibling |] eqn:Hnth;
        [| discriminate].
      destruct (is_With_of p sibling) eqn:Hsib; [| discriminate].
      inversion H; subst; clear H. split.
      * intros _. right. destruct sibling; try discriminate. eauto.
      * simpl. rewrite Hsay. intros Hend. left. split; [exact Hend |].
        reflexivity.
    + assert (Hend : paired_with s' = PW_False
                     /\ say_inside_menu s' = say_inside_menu s).
      { destruct (pw_truthy _); inversion H; subst; clear H.
        - split; [reflexivity |].
          destruct (paired_with (advance_to_node (With w) s)); exact Hsay.
        - split; [reflexivity |]. rewrite <- Hsay. apply frame_indent. }
      destruct Hend as [Hp Hs]. split.
      * intros Hne. contradiction.
      * rewrite Hs. intros Hne. left. split; [exact Hne | reflexivity].
  - (* Label *)
    intros ln name params body IH.
    apply node_resolves_of_back; [reflexivity | reflexivity |].
    intros block index s; simpl. apply list_all_Forall in IH.
    destruct (after_call block index) as [c |]; simpl;
      [| apply keeps_registers_Raise].
    destruct c; [apply keeps_registers_Ok; registers_chain |].
    apply print_nodes_with_registers_from; [exact IH | registers_chain].
  - intros; registers_leaf.
  - intros; registers_leaf.
  - intros; registers_leaf.
  - (* If *)
    intros ln entries IH.
    apply node_resolves_of_back; [reflexivity | reflexivity |].
    intros block index s s' H; simpl in H.
    apply list_all_blocks_Forall in IH.
    apply bind_Ok in H as (r & H1 & H2). inversion H2; subst; clear H2.
    apply (for_each_indexed_rel
             (fun st st' : bool * Decompiler =>
                registers_back (snd st) (snd st'))) in H1.
    + simpl in H1. eapply registers_back_trans; [| exact H1].
      registers_chain.
    + intros st. apply registers_back_refl.
    + intros st1 st2 st3. apply registers_back_trans.
    + eapply Forall_impl; [| exact IH].
      intros entry Hentry i st st' E.
      apply bind_Ok in E as (s1 & E1 & E2). inversion E2; subst; clear E2.
      simpl.
      eapply print_nodes_with_registers_from; [exact Hentry | | exact E1].
      destruct (_ && _); simpl; registers_chain.
  - (* While *)
    intros ln condition body IH.
    apply node_resolves_of_back; [reflexivity | reflexivity |].
    intros block index s; simpl. apply list_all_Forall in IH.
    apply print_nodes_with_registers_from; [exact IH | registers_chain].
  - intros; registers_leaf_from print_pass_registers.
  - (* Init *)
    intros ln priority body IH.
    apply node_resolves_of_back; [reflexivity | reflexivity |].
    intros block index s; simpl. apply list_all_Forall in IH.
    destruct (is_implicit_init _ _ _) as [implicit |]; simpl;
      [| apply keeps_registers_Raise].
    destruct implicit;
      [apply print_nodes_with_registers_from; [exact IH | registers_chain] |].
    destruct (is_translatestring_init _ _);
      [apply print_nodes_with_registers_from; [exact IH | registers_chain] |].
    destruct (init_on_one_line _ _) as [one_line |]; simpl;
      [| apply keeps_registers_Raise].
    destruct one_line;
      (apply print_nodes_with_registers_from; [exact IH | registers_chain]).
  - (* Menu *)
    intros ln menu_with set items IH block index s s' H; simpl in H.
    apply list_all_items_Forall in IH.
    apply bind_Ok in H as (s1 & H1 & H2).
    apply bind_Ok in H2 as (s2 & H2 & H3). inversion H3; subst; clear H3.
    set (s0 := add_indent_level 1
                 (write "menu:"
                    (indent (advance_to_node
                               (Menu ln menu_with set items) s)))) in *.
    assert (Hs0 : registers_back s s0) by (subst s0; registers_chain).
    assert (Hs0say : say_inside_menu s0
                     = say_inside_menu
                         (indent (advance_to_node
                                    (Menu ln menu_with set items) s)))
      by reflexivity.
    assert (E1 : paired_with s1 = paired_with s0
                 /\ say_inside_menu s1 = None).
    { rewrite <- Hs0say in H1.
      destruct (say_inside_menu s0) as [say |] eqn:Esay.
      - rewrite print_say_inmenu in H1. cbn [bind] in H1.
        inversion H1 as [E1]; clear H1. split; [| reflexivity].
        change (paired_with (indent s0) = paired_with s0).
        apply frame_indent.
      - inversion H1 as [E1]; clear H1. split; [reflexivity | exact Esay]. }
    destruct E1 as [Ep Es].
    apply (for_each_rel registers_back) in H2.
    + destruct H2 as [H2p H2s]. split; simpl.
      * intros Hend. left. split; [| reflexivity].
        apply H2p in Hend. apply Hs0.
        rewrite <- Ep.
        destruct menu_with, set; simpl in Hend;
          rewrite ?paired_with_indent in Hend; exact Hend.
      * intros Hend. exfalso. apply H2s in Hend. apply Hend.
        destruct menu_with, set; simpl;
          repeat match goal with
                 | |- say_inside_menu (indent ?x) = _ =>
                     transitivity (say_inside_menu x);
                     [apply frame_indent |]
                 | |- say_inside_menu (write _ ?x) = _ =>
                     change (say_inside_menu x = None)
                 end; exact Es.
    + apply registers_back_refl.
    + apply registers_back_trans.
    + eapply Forall_impl; [| exact IH].
      intros [[label condition] [body |]] Hitem s3 s4 E; simpl in *.
      * eapply print_nodes_with_registers_from; [exact Hitem | | exact E].
        registers_chain.
      * inversion E; subst. registers_chain.
  - intros; registers_leaf_from print_python_registers.
  - intros; registers_leaf_from print_python_registers.
  - intros; registers_leaf.
  - (* Say *)
    intros say block index s s' H. simpl in H.
    destruct (say_goes_inside_menu block index say false) as [inside |] eqn:E.
    + destruct inside.
      * unfold print_say in H. rewrite E in H. simpl in H.
        inversion H; subst; clear H.
        apply say_goes_inside_menu_next in E. split.
        -- simpl. intros Hend. left. split; [| reflexivity].
           intros Hs. apply Hend. rewrite <- Hs. apply frame_advance_to_node.
        -- intros _. right. exact E.
      * rewrite (print_say_in_place _ _ _ _ _ E) in H.
        inversion H; subst; clear H.
        assert (Hback : registers_back s
                          (write (say_text say false)
                                 (indent (advance_to_node (Say say) s))))
          by registers_chain.
        destruct Hback as [Hp Hs].
        split; intros Hend; left; (split; [auto | reflexivity]).
    + unfold print_say in H. rewrite E in H. discriminate.
  - intros; registers_leaf.
  - intros; registers_leaf.
  - (* Translate *)
    intros ln language identifier body IH.
    apply node_resolves_of_back; [reflexivity | reflexivity |].
    intros block index s; simpl. apply list_all_Forall in IH.
    apply print_nodes_with_registers_from; [exact IH | registers_chain].
  - intros; registers_leaf.
  - intros; registers_leaf_from print_translatestring_registers.
  - (* TranslateBlock *)
    intros ln language body IH.
    apply node_resolves_of_back; [reflexivity | reflexivity |].
    intros block index s; simpl. apply list_all_Forall in IH.
    apply print_nodes_with_registers_from; [exact IH | registers_chain].
  - intros; registers_leaf.
  - intros; registers_leaf.
Qed.
(** A block rendered from a cleared paired [with] register ends with the
    register cleared: the transition that arms it has checked that the block
    holds, two positions further, the transition that clears it. *)
Theorem paired_with_cleared_after_block
        (ast : list Node) (extra_indent : Z) (s s' : Decompiler) :
  paired_with s = PW_False ->
  print_nodes ast extra_indent s = Ok s' ->
  paired_with s' = PW_False.
Proof.
  intros Hs H.
  assert (Hback : registers_back s s').
  { apply (@print_nodes_with_registers ast)
      with (extra_indent := extra_indent); [| exact H].
    apply Forall_forall. intros node _. apply print_node_resolves. }
  destruct Hback as [Hp _].
  destruct (paired_with s') eqn:E; [reflexivity | |];
    exfalso; apply Hp; [discriminate | exact Hs | discriminate | exact Hs].
Qed.

(** A block rendered with no dialogue waiting ends with no dialogue waiting:
    a say statement is only kept when the next statement of the block is a
    menu, and the menu renders it and empties the register. *)
Theorem say_inside_menu_empty_after_block
        (ast : list Node) (extra_indent : Z) (s s' : Decompiler) :
  say_inside_menu s = None ->
  print_nodes ast extra_indent s = Ok s' ->
  say_inside_menu s' = None.
Proof.
  intros Hs H.
  assert (Hback : registers_back s s').
  { apply (@print_nodes_with_registers ast)
      with (extra_indent := extra_indent); [| exact H].
    apply Forall_forall. intros node _. apply print_node_resolves. }
  destruct Hback as [_ Hsay].
  destruct (say_inside_menu s') eqn:E; [| reflexivity].
  exfalso; apply Hsay; [discriminate | exact Hs].
Qed.

(** ** More on the renderers *)

(** Rendering a motion statement or a motion block changes neither the
    indentation depth nor the paired [with] register nor the dialogue kept
    for a menu. *)
Theorem motion_rendering_keeps_registers :
  (forall (a : AtlNode) (s : Decompiler),
      indent_level (print_atl_node a s) = indent_level s
      /\ paired_with (print_atl_node a s) = paired_with s
      /\ say_inside_menu (print_atl_node a s) = say_inside_menu s)
  /\ (forall (b : RawBlock) (s : Decompiler),
         indent_level (print_atl b s) = indent_level s
         /\ paired_with (print_atl b s) = paired_with s
         /\ say_inside_menu (print_atl b s) = say_inside_menu s).
Proof.
  split.
  - intros a s. destruct (frame_print_atl_node a s) as (H1 & H2 & H3).
    repeat split; try assumption. lia.
  - intros b s. destruct (frame_print_atl b s) as (H1 & H2 & H3).
    repeat split; try assumption. lia.
Qed.

(** [print_imspec] writes the clauses of the image specifier in one go and
    tells whether the last [at] expression ends with a space; it raises the
    index error of [imspec[3][-1][-1]] exactly when there are [at]
    expressions and the last one is the empty string. *)
Theorem print_imspec_result (imspec : ImSpec) (s : Decompiler) :
  (imspec_ok imspec ->
   print_imspec imspec s
   = Ok (write (imspec_text imspec) s, imspec_ends_with_space imspec))
  /\ (~ imspec_ok imspec -> print_imspec imspec s = Raise IndexError).
Proof.
  split; [apply print_imspec_text |].
  intros Hnot. unfold print_imspec, imspec_ok in *.
  destruct (im_at_list imspec) as [| a rest] eqn:Eat.
  - exfalso. apply Hnot. left. reflexivity.
  - destruct (last_char (last (a :: rest) EmptyString)) as [c |] eqn:El;
      [| reflexivity].
    exfalso. apply Hnot. right. intros E. rewrite E in El. discriminate.
Qed.
(** The loop of [print_if] from position [i]: the state of [First] is "no
    header written yet", which on a position that is not the last one is
    "[i] is 0". *)
Lemma print_if_loop (entries rest : list (string * list Node)) :
  forall (i : nat) (first : bool) (s : Decompiler),
    (i + List.length rest = List.length entries)%nat ->
    (rest <> [] -> first = (i =? 0)%nat) ->
    (r <- for_each_indexed
            (fun (i : nat) (entry : string * list Node)
                 (st : bool * Decompiler) =>
               let first := fst st in
               let s := indent (snd st) in
               let st :=
                 if (i + 1 =? List.length entries)%nat
                    && (strip (fst entry) =? "True")%string
                 then (first, write "else:" s)
                 else (false,
                       write ((if first then "if " else "elif ")
                              ++ fst entry ++ ":") s) in
               s <- print_nodes_with print_node (snd entry) 1 (snd st) ;;
               Ok (fst st, s))
            rest i (first, s) ;;
     Ok (snd r))
    = for_each_indexed (print_if_entry (List.length entries)) rest i s.
Proof.
  induction rest as [| entry rest' IH]; intros i first s Hlen Hfirst.
  - reflexivity.
  - specialize (Hfirst ltac:(discriminate)). subst first.
    cbn [for_each_indexed bind fst snd].
    unfold print_if_entry at 1, if_header, print_nodes.
    destruct ((i + 1 =? List.length entries)%nat
              && (strip (fst entry) =? "True")%string) eqn:Eelse.
    + cbn [fst snd].
      destruct (print_nodes_with print_node (snd entry) 1 _) as [s1 |];
        cbn [bind]; [| reflexivity].
      apply IH; [simpl in Hlen; lia |].
      intros Hrest. exfalso. apply andb_true_iff in Eelse as [Elast _].
      apply Nat.eqb_eq in Elast. simpl in Hlen.
      destruct rest'; [contradiction | simpl in Hlen; lia].
    + cbn [fst snd].
      destruct (print_nodes_with print_node (snd entry) 1 _) as [s1 |];
        cbn [bind]; [| reflexivity].
      apply IH; [simpl in Hlen; lia |].
      intros _. reflexivity.
Qed.

(** The headers of a conditional: the entry at position 0 is written [if],
    the following ones [elif], and the last one [else:] when its condition,
    stripped, is [True] (so a conditional of one entry whose condition is
    [True] is a lone [else:]). *)
Theorem print_if_headers (linenumber : Z) (entries : list (string * list Node))
        (block : list Node) (index : nat) (s : Decompiler) :
  print_node (If linenumber entries) block index s
  = for_each_indexed (print_if_entry (List.length entries)) entries O
                     (advance_to_line linenumber s).
Proof.
  cbn [print_node advance_to_node is_TranslateString node_linenumber].
  apply print_if_loop; [reflexivity | intros _; reflexivity].
Qed.

(** A label or a pass statement right after a call is part of the call: the
    label is written as the [from] clause on the line of the call and its
    block is not rendered, the pass statement is not written.  After any
    other statement both are rendered in full. *)
Theorem statements_after_call
        (block : list Node) (index : nat) (prev : Node) (s : Decompiler) :
  nth_error block index = Some prev ->
  (is_Call prev = true ->
   (forall ln name params body,
       print_node (Label ln name params body) block (S index) s
       = Ok (write (" from " ++ name) (advance_to_line ln s)))
   /\ (forall ln,
          print_node (Pass ln) block (S index) s
          = Ok (advance_to_line ln s)))
  /\ (is_Call prev = false ->
      (forall ln name params body,
          print_node (Label ln name params body) block (S index) s
          = print_nodes body 1
              (write ("label " ++ name ++ reconstruct_paraminfo params ++ ":")
                     (indent (advance_to_line ln s))))
      /\ (forall ln,
             print_node (Pass ln) block (S index) s
             = Ok (write "pass" (indent (advance_to_line ln s))))).
Proof.
  intros Hprev. split; intros Hcall; split; intros;
    cbn [print_node advance_to_node is_TranslateString node_linenumber];
    unfold print_pass; cbn [after_call]; rewrite Hprev, Hcall; reflexivity.
Qed.

(** ** Statements rendered together *)

Lemma say_goes_inside_menu_true (block : list Node) (index : nat)
      (ast : SayNode) :
  say_can_wait ast -> menu_takes_say block index ast ->
  say_goes_inside_menu block index ast false = Ok true.
Proof.
  intros Hw (ml & mw & ms & label & condition & body & rest & Hnth & Hl).
  unfold say_goes_inside_menu.
  rewrite (say_can_wait_true Hw), Hnth. simpl andb.
  assert (Hlt : (index + 1 <? List.length block)%nat = true).
  { apply Nat.ltb_lt. apply nth_error_Some. rewrite Hnth. discriminate. }
  rewrite Hlt. unfold should_come_before. simpl node_linenumber.
  destruct Hl as [Hc | Hle].
  - rewrite Hc. reflexivity.
  - destruct (comparable cfg); [| reflexivity].
    replace (say_linenumber ast <? ml) with false
      by (symmetry; apply Z.ltb_ge; exact Hle).
    reflexivity.
Qed.

Lemma say_inside_menu_indent (s : Decompiler) :
  say_inside_menu (indent s) = say_inside_menu s.
Proof. apply frame_indent. Qed.

Lemma say_inside_menu_advance_to_line (target : Z) (s : Decompiler) :
  say_inside_menu (advance_to_line target s) = say_inside_menu s.
Proof. apply frame_advance_to_line. Qed.

(** A say statement that can wait and the menu that follows it are rendered
    as one menu: the header [menu:], the dialogue line inside the menu
    (without [nointeract]), then the [with] and [set] clauses and the entries
    of the menu; the register is empty afterwards. *)
Theorem say_rendered_inside_menu
        (before after : list Node) (say : SayNode) (ml : Z)
        (mw ms : option string) (label condition : string)
        (body : list Node) (rest : list (string * string * option (list Node)))
        (s : Decompiler) :
  let items := (label, condition, Some body) :: rest in
  let block := (before ++ Say say :: Menu ml mw ms items :: after)%list in
  let index := List.length before in
  say_can_wait say ->
  comparable cfg = false \/ ml <= say_linenumber say ->
  (s1 <- print_node (Say say) block index s ;;
   print_node (Menu ml mw ms items) block (S index) s1)
  = let s := advance_to_line ml
               (set_say_inside_menu (Some say)
                  (advance_to_line (say_linenumber say) s)) in
    let s := add_indent_level 1 (write "menu:" (indent s)) in
    let s := set_say_inside_menu None
               (write (say_text say true) (indent s)) in
    let s := match mw with
             | Some w => write ("with " ++ w) (indent s)
             | None => s
             end in
    let s := match ms with
             | Some e => write ("set " ++ e) (indent s)
             | None => s
             end in
    (s <- print_menu_items items s ;; Ok (add_indent_level (-1) s)).
Proof.
  intros items block index Hwait Hline.
  assert (Hnth : nth_error block (index + 1) = Some (Menu ml mw ms items)).
  { subst block index. rewrite nth_error_app2 by lia.
    replace (List.length before + 1 - List.length before)%nat with 1%nat
      by lia.
    reflexivity. }
  assert (Hinside : say_goes_inside_menu block index say false = Ok true).
  { apply say_goes_inside_menu_true; [exact Hwait |].
    unfold menu_takes_say. do 7 eexists. split; [exact Hnth | exact Hline]. }
  assert (Hsay : print_node (Say say) block index s
                 = Ok (set_say_inside_menu
                         (Some say)
                         (advance_to_line (say_linenumber say) s))).
  { cbn [print_node advance_to_node is_TranslateString node_linenumber].
    unfold print_say. rewrite Hinside. reflexivity. }
  rewrite Hsay. cbn [bind]. rewrite print_node_Menu. unfold print_menu.
  set (s0 := advance_to_line ml
               (set_say_inside_menu (Some say)
                  (advance_to_line (say_linenumber say) s))).
  assert (Hreg : say_inside_menu (add_indent_level 1 (write "menu:" (indent s0)))
                 = Some say).
  { change (say_inside_menu (indent s0) = Some say).
    rewrite say_inside_menu_indent. subst s0.
    rewrite say_inside_menu_advance_to_line. reflexivity. }
  cbv zeta. rewrite Hreg, print_say_inmenu. cbn [bind]. reflexivity.
Qed.

Lemma print_hide_text (imspec : ImSpec) (s : Decompiler) :
  imspec_ok imspec ->
  print_hide imspec s = Ok (write ("hide " ++ imspec_text imspec) (indent s)).
Proof.
  intros Hok. unfold print_hide. rewrite (print_imspec_text _ Hok); simpl.
  rewrite write_write. reflexivity.
Qed.

(** A hide statement between a transition paired with [A] and the transition
    of expression [A]: the hide statement writes its line and leaves the
    register armed, and the trailing transition appends [ with A] to what has
    been written and clears the register.  No [with] line of its own is
    written. *)
Theorem paired_with_around_hide
        (A own_expr : string) (wl hl tl : Z) (imspec : ImSpec)
        (s : Decompiler) :
  A <> EmptyString -> imspec_ok imspec ->
  print_nodes
    [With {| with_linenumber := wl; with_expr := own_expr;
             paired := Some A |};
     Hide hl imspec;
     With {| with_linenumber := tl; with_expr := A; paired := None |}] 0 s
  = Ok (set_paired_with PW_False
          (write (" with " ++ A)
             (advance_to_line tl
                (write ("hide " ++ imspec_text imspec)
                   (indent
                      (advance_to_line hl
                         (set_paired_with (PW_Expr A)
                            (advance_to_line wl s)))))))).
Proof.
  intros HA Hok. rewrite print_nodes_0.
  cbn [for_each_indexed bind print_node advance_to_node is_TranslateString
       node_linenumber with_linenumber].
  unfold print_with at 1.
  cbn [paired nth_error Nat.add is_With_of with_expr].
  rewrite String.eqb_refl. cbn [negb bind].
  rewrite (print_hide_text _ Hok). cbn [bind].
  unfold print_with. cbn [paired with_expr].
  rewrite paired_with_advance_to_line, paired_with_write, paired_with_indent,
    paired_with_advance_to_line.
  cbn [paired_with set_paired_with].
  destruct A as [| c A]; [contradiction | reflexivity].
Qed.

End Statements.

(** * Concrete renderings *)

(** Stand-ins for what the module imports, enough to run the renderers on
    small trees: an escape that changes nothing, code kept as one logical
    line, empty parameter lists, screen decompilers that write nothing. *)
Definition ex_cfg (comparable : bool) : Config :=
  {| comparable := comparable; force_multiline_kwargs := true;
     decompile_screencode := true; decompile_python := true;
     indentation := "    " |}.

Definition ex_escape (text : string) : string := text.
Definition ex_lines (code : string) : list string := [code].
Definition ex_paraminfo (params : option ParameterInfo) : string := EmptyString.
Definition ex_arginfo (args : ArgumentInfo) : string := "()".
Definition ex_screen (screen : unit) (indent_level linenumber : Z)
           (f1 f2 f3 f4 f5 : bool) : string * Z := (EmptyString, linenumber).
Definition ex_sl2 (screen : unit) (indent_level linenumber : Z)
           (f1 f2 f3 f4 : bool) : string * Z := (EmptyString, linenumber).
Definition ex_repr (text : string) : string := "u'" ++ text ++ "'".
Definition ex_unknown (tag : string) : string :=
  "<<<UNKNOWN NODE " ++ tag ++ ">>>".

Definition ExNode : Type := Node unit unit.

Definition ex_print_node (comparable : bool)
  : ExNode -> list ExNode -> nat -> Decompiler -> result Decompiler :=
  @print_node unit unit (ex_cfg comparable) 3 ex_escape ex_lines ex_paraminfo
              ex_arginfo ex_screen ex_sl2 ex_repr ex_unknown.

Definition ex_print_nodes (comparable : bool)
  : list ExNode -> Z -> Decompiler -> result Decompiler :=
  @print_nodes unit unit (ex_cfg comparable) 3 ex_escape ex_lines ex_paraminfo
               ex_arginfo ex_screen ex_sl2 ex_repr ex_unknown.

Definition ex_imspec : ImSpec :=
  {| im_name := ["eileen"; "happy"]; im_expression := None; im_tag := None;
     im_at_list := []; im_layer := "master"; im_zorder := None;
     im_behind := [] |}.

Definition ex_with (linenumber : Z) (expr : string) (paired : option string)
  : ExNode :=
  With unit unit {| with_linenumber := linenumber; with_expr := expr;
                    paired := paired |}.

Definition ex_say (linenumber : Z) : SayNode :=
  {| say_linenumber := linenumber; who := Some "e"; what := "Where to?";
     with_ := None; interact := false; attributes := None |}.

Definition ex_menu (linenumber : Z) (condition : string) : ExNode :=
  Menu linenumber None None
       [("Home", condition, Some [Jump unit unit (linenumber + 2) "home" false])].

Definition ex_define (linenumber : Z) : ExNode :=
  Define unit unit linenumber None "e" "Character()".

Definition ex_style (props : list (string * string)) : StyleNode :=
  {| style_linenumber := 1; style_name := "big"; parent := Some "text";
     clear := false; take := None; delattr := []; variant := None;
     style_properties := props |}.

Definition ex_armed : Decompiler :=
  set_paired_with (PW_Expr "dissolve") (new_Decompiler 1).

Definition ex_paired_show : list ExNode :=
  [ex_with 3 "None" (Some "dissolve"); Show unit unit 3 ex_imspec None;
   ex_with 3 "dissolve" None].

Definition ex_block : list ExNode :=
  [Say unit unit (ex_say 1); ex_menu 2 "True";
   Python unit unit 5 "x = 1" false; Init 6 0 [ex_define 7]].

Definition ex_block_rendered : Decompiler :=
  Eval vm_compute in
    match ex_print_nodes false ex_block 0 (new_Decompiler 1) with
    | Ok s => s
    | Raise _ => new_Decompiler 0
    end.

Definition ex_say_menu (condition : string) : list ExNode :=
  [Say unit unit (ex_say 2); ex_menu 2 condition].

Definition ex_handler (line : Z) : RawBlock :=
  mkRawBlock ("script.rpy", line) [].

(** ** C1: a paired transition around a show statement *)

Lemma paired_with_resolution_witness :
  "dissolve" <> EmptyString
  /\ imspec_ok ex_imspec
  /\ ex_print_nodes true ex_paired_show 0 (new_Decompiler 1)
     = Ok (mkDecompiler (nl ++ "show eileen happy with dissolve") 3 0 false
                        PW_False None).
Proof.
  assert (HA : "dissolve" <> EmptyString) by discriminate.
  assert (Hok : imspec_ok ex_imspec) by (left; reflexivity).
  split; [exact HA | split; [exact Hok |]].
  exact (proj1 (@paired_with_resolution
                  unit unit (ex_cfg true) 3 ex_escape ex_lines ex_paraminfo
                  ex_arginfo ex_screen ex_sl2 ex_repr ex_unknown
                  "dissolve" "None" 3 3 ex_imspec None
                  (ex_with 3 "dissolve" None) (new_Decompiler 1) HA Hok)
               3 eq_refl).
Defined.

(** The empty expression is the one value of [paired] that the register
    takes for "not armed": the show statement then gets no clause and the
    trailing transition is written on a line of its own. *)
Lemma paired_with_empty_expression :
  ex_print_nodes true
    [ex_with 3 "None" (Some EmptyString); Show unit unit 3 ex_imspec None;
     ex_with 3 EmptyString None] 0 (new_Decompiler 1)
  = Ok (mkDecompiler (nl ++ "show eileen happy" ++ nl ++ "with ") 3 0 false
                     PW_False None).
Proof. vm_compute. reflexivity. Qed.

(** ** C3: the depth after a block *)

Lemma indentation_depth_restored_witness :
  ex_print_nodes false ex_block 0 (new_Decompiler 1) = Ok ex_block_rendered
  /\ indent_level ex_block_rendered = indent_level (new_Decompiler 1).
Proof.
  assert (H : ex_print_nodes false ex_block 0 (new_Decompiler 1)
              = Ok ex_block_rendered) by (vm_compute; reflexivity).
  split; [exact H |].
  exact (proj1 (proj2 (@indentation_depth_restored
                         unit unit (ex_cfg false) 3 ex_escape ex_lines
                         ex_paraminfo ex_arginfo ex_screen ex_sl2 ex_repr
                         ex_unknown))
               ex_block 0 (new_Decompiler 1) ex_block_rendered H).
Defined.

(** ** C4: a say statement before a menu *)

Lemma say_deferral_witness :
  (say_can_wait (ex_say 2)
   /\ menu_takes_say (ex_cfg true) (ex_say_menu "x > 0") 0 (ex_say 2))
  /\ print_say (ex_cfg true) ex_escape (ex_say_menu "x > 0") 0 (ex_say 2)
               false (new_Decompiler 1)
     = Ok (set_say_inside_menu (Some (ex_say 2)) (new_Decompiler 1)).
Proof.
  assert (H : say_can_wait (ex_say 2)
              /\ menu_takes_say (ex_cfg true) (ex_say_menu "x > 0") 0
                                (ex_say 2)).
  { split.
    - repeat split; discriminate.
    - unfold menu_takes_say. do 7 eexists.
      split; [reflexivity | right; simpl; lia]. }
  split; [exact H |].
  exact (proj1 (@say_deferral unit unit (ex_cfg true) ex_escape
                              (ex_say_menu "x > 0") 0 (ex_say 2)
                              (new_Decompiler 1)) H).
Defined.

(** C4 as stated fails here: the first entry of the menu has the condition
    [True], that is no conditional guard, and the statement is kept for the
    menu all the same. *)
Lemma say_deferral_counterexample :
  print_say (ex_cfg false) ex_escape (ex_say_menu "True") 0 (ex_say 2) false
            (new_Decompiler 1)
  = Ok (set_say_inside_menu (Some (ex_say 2)) (new_Decompiler 1)).
Proof. vm_compute. reflexivity. Qed.

(** In comparable mode a statement recorded before the menu is rendered in
    place, also when the first entry of the menu is guarded. *)
Lemma say_before_later_menu :
  print_say (ex_cfg true) ex_escape
            [Say unit unit (ex_say 1); ex_menu 2 "x > 0"] 0 (ex_say 1)
            false (new_Decompiler 1)
  = Ok (mkDecompiler (nl ++ "e " ++ dquote ++ "Where to?" ++ dquote
                         ++ " nointeract")
                     1 0 false PW_False None).
Proof. vm_compute. reflexivity. Qed.

(** ** C5: display directives after a paired transition *)

Lemma display_directives_and_paired_with_witness :
  paired_with ex_armed = PW_Expr "dissolve"
  /\ "dissolve" <> EmptyString
  /\ imspec_ok ex_imspec
  /\ print_show (ex_cfg true) 3 ex_unknown ex_imspec None ex_armed
     = Ok (mkDecompiler (nl ++ "show eileen happy with dissolve") 1 0 false
                        PW_True None).
Proof.
  assert (Hp : paired_with ex_armed = PW_Expr "dissolve") by reflexivity.
  assert (He : "dissolve" <> EmptyString) by discriminate.
  assert (Hok : imspec_ok ex_imspec) by (left; reflexivity).
  split; [exact Hp | split; [exact He | split; [exact Hok |]]].
  exact (proj1 (@display_directives_and_paired_with
                  unit unit (ex_cfg true) 3 ex_repr ex_unknown "dissolve"
                  ex_armed Hp He)
               ex_imspec None Hok).
Defined.

(** A hide and a show-layer statement after a paired transition: no [with]
    clause is written and the register stays armed. *)
Lemma display_directives_counterexample :
  print_hide (ex_cfg true) ex_imspec ex_armed
  = Ok (mkDecompiler (nl ++ "hide eileen happy") 1 0 false
                     (PW_Expr "dissolve") None)
  /\ print_showlayer (ex_cfg true) 3 ex_unknown "master" ["shake"] None
                     ex_armed
     = mkDecompiler (nl ++ "show layer master at shake") 1 0 false
                    (PW_Expr "dissolve") None.
Proof. split; vm_compute; reflexivity. Qed.

(** ** C6: an init block around one declaration *)

Lemma implicit_init_collapsing_witness :
  is_declaration (ex_define 3) = true
  /\ node_linenumber (ex_define 3) = Some 3
  /\ comparable (ex_cfg true) = true
  /\ 2 < 3
  /\ ex_print_node true (Init 2 0 [ex_define 3]) [Init 2 0 [ex_define 3]] O
                   (new_Decompiler 1)
     = Ok (mkDecompiler (nl ++ "init:" ++ nl ++ "    define e = Character()")
                        3 0 false PW_False None).
Proof.
  assert (Hd : is_declaration (ex_define 3) = true) by reflexivity.
  assert (Hl : node_linenumber (ex_define 3) = Some 3) by reflexivity.
  assert (Hlt : 2 < 3) by lia.
  split; [exact Hd | split; [exact Hl | split; [reflexivity |
    split; [exact Hlt |]]]].
  exact (eq_trans
           (proj2 (@implicit_init_collapsing
                     unit unit (ex_cfg true) 3 ex_escape ex_lines ex_paraminfo
                     ex_arginfo ex_screen ex_sl2 ex_repr ex_unknown
                     2 3 (ex_define 3) [Init 2 0 [ex_define 3]] O
                     (new_Decompiler 1) Hd Hl)
                  eq_refl Hlt)
           eq_refl).
Defined.

(** An init block recorded on line 5 around a define recorded on line 3, in
    comparable mode: the block is later than its declaration, and only the
    declaration is written. *)
Lemma implicit_init_counterexample :
  ex_print_node true (Init 5 0 [ex_define 3]) [Init 5 0 [ex_define 3]] O
                (new_Decompiler 1)
  = Ok (mkDecompiler (nl ++ "define e = Character()") 5 0 false PW_False None).
Proof. vm_compute. reflexivity. Qed.

(** ** C7: a motion block without statements *)

Lemma print_atl_empty_block_witness :
  comparable (ex_cfg true) = true
  /\ out_file (print_atl (ex_cfg true) 3 ex_unknown
                         (mkRawBlock (EmptyString, 0) []) (new_Decompiler 1))
     = out_file (new_Decompiler 1).
Proof.
  split; [reflexivity |].
  exact (proj1 (@print_atl_empty_block (ex_cfg true) 3 ex_unknown
                                       (EmptyString, 0) (new_Decompiler 1))
               eq_refl eq_refl).
Defined.

(** Outside comparable mode the block recorded at [('', 0)] gets its [pass]
    line like any other. *)
Lemma print_atl_empty_block_counterexample :
  print_atl (ex_cfg false) 3 ex_unknown (mkRawBlock (EmptyString, 0) [])
            (new_Decompiler 1)
  = mkDecompiler (nl ++ "    pass") 1 0 false PW_False None.
Proof. vm_compute. reflexivity. Qed.

(** ** C8: the error of an unmatched paired transition *)

Lemma unmatched_paired_with_error_witness :
  paired {| with_linenumber := 7; with_expr := "None";
            paired := Some "dissolve" |} = Some "dissolve"
  /\ List.length [ex_with 7 "None" (Some "dissolve");
                  Show unit unit 7 ex_imspec None] = (0 + 2)%nat
  /\ is_With_of "dissolve" (ex_with 7 "fade" None) = false
  /\ exists x y : string,
      print_with (ex_cfg true) ex_repr
                 ([ex_with 7 "None" (Some "dissolve");
                   Show unit unit 7 ex_imspec None]
                    ++ ex_with 7 "fade" None :: [])%list
                 O
                 {| with_linenumber := 7; with_expr := "None";
                    paired := Some "dissolve" |}
                 (new_Decompiler 1)
      = Raise (Exception ("Unmatched paired with " ++ x ++ " != " ++ y)).
Proof.
  split; [reflexivity | split; [reflexivity | split; [reflexivity |]]].
  destruct (proj1 (@unmatched_paired_with_error
                     unit unit (ex_cfg true) 3 ex_escape ex_lines ex_paraminfo
                     ex_arginfo ex_screen ex_sl2 ex_repr ex_unknown
                     [ex_with 7 "None" (Some "dissolve");
                      Show unit unit 7 ex_imspec None]
                     [] O
                     {| with_linenumber := 7; with_expr := "None";
                        paired := Some "dissolve" |}
                     "dissolve" (ex_with 7 "fade" None) (new_Decompiler 1)
                     eq_refl eq_refl eq_refl))
    as (x & y & H & _).
  exists x, y. exact H.
Defined.

(** Two failures that differ in the expected expression, in the expression
    of the sibling and in the recorded line raise the same error, which
    names none of them. *)
Lemma unmatched_paired_with_counterexample :
  print_with (ex_cfg true) ex_repr
             [ex_with 7 "None" (Some "dissolve");
              Show unit unit 7 ex_imspec None; ex_with 7 "fade" None]
             O
             {| with_linenumber := 7; with_expr := "None";
                paired := Some "dissolve" |}
             (new_Decompiler 1)
  = Raise (Exception "Unmatched paired with False != u'None'")
  /\ print_with (ex_cfg true) ex_repr
                [ex_with 42 "None" (Some "pixellate");
                 Show unit unit 42 ex_imspec None; ex_with 42 "wipeleft" None]
                O
                {| with_linenumber := 42; with_expr := "None";
                   paired := Some "pixellate" |}
                (new_Decompiler 1)
     = Raise (Exception "Unmatched paired with False != u'None'").
Proof. split; vm_compute; reflexivity. Qed.

(** ** C9: embedded code *)

Lemma print_python_branches_witness :
  "x = 1" <> EmptyString
  /\ exists s',
      print_python (ex_cfg true) ex_lines "x = 1" false false
                   (new_Decompiler 1) = Ok s'.
Proof.
  assert (H : "x = 1" <> EmptyString) by discriminate.
  split; [exact H |].
  exact (proj1 (proj2 (@print_python_branches (ex_cfg true) ex_lines false
                                              false (new_Decompiler 1)))
               "x = 1" H).
Defined.

(** ** C2: the properties of a style in comparable mode *)

(** C2 (comparable-mode determinism), at the input where it fails: two style
    statements that hold the same properties, stored in two orders, render
    to different texts in comparable mode. *)
Lemma style_properties_storage_order :
  Permutation [("size", "40"); ("color", "white")]
              [("color", "white"); ("size", "40")]
  /\ out_file (print_style (ex_cfg true)
                 (ex_style [("size", "40"); ("color", "white")])
                 (new_Decompiler 1))
     = nl ++ "style big is text size 40 color white"
  /\ out_file (print_style (ex_cfg true)
                 (ex_style [("color", "white"); ("size", "40")])
                 (new_Decompiler 1))
     = nl ++ "style big is text color white size 40".
Proof.
  split; [apply perm_swap | split; vm_compute; reflexivity].
Qed.

(** ** Event handlers of an [on] statement in comparable mode *)

Lemma on_handlers_storage_order_witness :
  comparable (ex_cfg true) = true
  /\ exists ordered : list (string * RawBlock),
       Permutation [("hide", ex_handler 5); ("show", ex_handler 3)] ordered
       /\ ascending_lines ordered
       /\ (forall line,
              handlers_on_line line ordered
              = handlers_on_line
                  line [("hide", ex_handler 5); ("show", ex_handler 3)])
       /\ print_atl_node (ex_cfg true) 3 ex_unknown
            (RawOn ("script.rpy", 2)
                   [("hide", ex_handler 5); ("show", ex_handler 3)])
            (new_Decompiler 1)
          = for_loop (print_handler (ex_cfg true) 3 ex_unknown) ordered
                     (advance_to_line (ex_cfg true) 3 2 (new_Decompiler 1))
       /\ (NoDup (map handler_line
                      [("hide", ex_handler 5); ("show", ex_handler 3)]) ->
           forall handlers',
             Permutation [("hide", ex_handler 5); ("show", ex_handler 3)]
                         handlers' ->
             print_atl_node (ex_cfg true) 3 ex_unknown
               (RawOn ("script.rpy", 2) handlers') (new_Decompiler 1)
             = for_loop (print_handler (ex_cfg true) 3 ex_unknown) ordered
                        (advance_to_line (ex_cfg true) 3 2 (new_Decompiler 1))).
Proof.
  split; [reflexivity |].
  exact (@on_handlers_storage_order
           (ex_cfg true) 3 ex_unknown ("script.rpy", 2)
           [("hide", ex_handler 5); ("show", ex_handler 3)]
           (new_Decompiler 1) eq_refl).
Defined.

(** The two handlers above are rendered in the order of their lines, the
    later stored one first. *)
Lemma on_handlers_rendered_by_line :
  out_file (print_atl_node (ex_cfg true) 3 ex_unknown
              (RawOn ("script.rpy", 2)
                     [("hide", ex_handler 5); ("show", ex_handler 3)])
              (new_Decompiler 1))
  = out_file (for_loop (print_handler (ex_cfg true) 3 ex_unknown)
                       [("show", ex_handler 3); ("hide", ex_handler 5)]
                       (advance_to_line (ex_cfg true) 3 2 (new_Decompiler 1))).
Proof. vm_compute. reflexivity. Qed.

(** Handlers recorded on the same line keep the order in which the dict
    stores them, in comparable mode too: the sort is by line only. *)
Lemma on_handlers_same_line :
  out_file (print_atl_node (ex_cfg true) 3 ex_unknown
              (RawOn ("script.rpy", 2)
                     [("show", ex_handler 3); ("hide", ex_handler 3)])
              (new_Decompiler 1))
  = nl ++ "on show:" ++ nl ++ "    pass" ++ nl ++ "on hide:" ++ nl
       ++ "    pass"
  /\ out_file (print_atl_node (ex_cfg true) 3 ex_unknown
                 (RawOn ("script.rpy", 2)
                        [("hide", ex_handler 3); ("show", ex_handler 3)])
                 (new_Decompiler 1))
     = nl ++ "on hide:" ++ nl ++ "    pass" ++ nl ++ "on show:" ++ nl
          ++ "    pass".
Proof. split; vm_compute; reflexivity. Qed.
